(** * The normaliser and realiser of [fstate.cc]

    A shallow embedding of [src/fstate.cc]: the builder runner
    ([runProgram] with its [AutoDelete] guard), the platform check, the
    term parsers ([parseIds], [parseSlice]), the normaliser
    ([normaliseFState]) and the realiser ([realiseSlice]).

    The store, the database, the hash primitive, the ATerm library and
    the operating system are not part of [fstate.cc].  They appear here
    either as fields of an interface class (what the file cannot know:
    the hash type, the host platform, what a builder does, what
    [expandId] does) or as small models over an explicit [World]. *)

From stdpp Require Import gmap strings list fin_maps pretty relations sorting.

Local Open Scope string_scope.
Local Open Scope list_scope.
Local Open Scope stdpp_scope.
Set Warnings "-register-all".

(** ** Terms of the ATerm library

    [fstate.cc] inspects terms only through [ATmatch], [ATgetType] and
    [ATgetName].  A function application carries its symbol's name and
    whether the symbol is quoted; a string constant is a quoted symbol
    without arguments, a tuple an unquoted symbol with the empty name. *)

Inductive ATerm : Type :=
| AAppl (name : string) (quoted : bool) (args : list ATerm)
| AList (elems : list ATerm)
| AInt (n : Z).

Definition AStr (s : string) : ATerm := AAppl s true [].
Definition ATuple (ts : list ATerm) : ATerm := AAppl "" false ts.

(** [ATmatch(t, "<str>", &s)] *)
Definition matchStr (t : ATerm) : option string :=
  match t with
  | AAppl s true [] => Some s
  | _ => None
  end.

(** [ATmatch(t, "(<str>, <str>)", &s1, &s2)] *)
Definition matchPair (t : ATerm) : option (string * string) :=
  match t with
  | AAppl "" false [AAppl s1 true []; AAppl s2 true []] => Some (s1, s2)
  | _ => None
  end.

(** [ATmatch(t, "(<str>, <str>, [<list>])", &s1, &s2, &refs)] *)
Definition matchElem (t : ATerm) : option (string * string * list ATerm) :=
  match t with
  | AAppl "" false [AAppl s1 true []; AAppl s2 true []; AList refs] =>
      Some (s1, s2, refs)
  | _ => None
  end.

(** [ATmatch(fs, "Slice([<list>], [<list>])", &roots, &elems)] *)
Definition matchSlice (t : ATerm) : option (list ATerm * list ATerm) :=
  match t with
  | AAppl "Slice" false [AList roots; AList elems] => Some (roots, elems)
  | _ => None
  end.

(** [ATgetType(fs) == AT_APPL && (string) ATgetName(ATgetAFun(fs)) == "Slice"] *)
Definition isSliceAppl (t : ATerm) : bool :=
  match t with
  | AAppl name _ _ => bool_decide (name = "Slice")
  | _ => false
  end.

(** The five fields of a [Derive] node, in the order of the pattern. *)
Record DeriveFields : Type := mkDerive {
  d_outs : list ATerm;
  d_ins : list ATerm;
  d_builder : string;
  d_platform : string;
  d_bnds : list ATerm
}.

(** [ATmatch(fs, "Derive([<list>], [<list>], <str>, <str>, [<list>])", ...)] *)
Definition matchDerive (t : ATerm) : option DeriveFields :=
  match t with
  | AAppl "Derive" false
      [AList outs; AList ins; AAppl builder true []; AAppl platform true [];
       AList bnds] =>
      Some (mkDerive outs ins builder platform bnds)
  | _ => None
  end.

(** The term [Derive(outs, ins, builder, platform, bnds)]. *)
Definition DeriveTerm (outs ins : list ATerm) (builder platform : string)
    (bnds : list ATerm) : ATerm :=
  AAppl "Derive" false
    [AList outs; AList ins; AStr builder; AStr platform; AList bnds].

(** ** Hashes

    [Hash] (alias [FSId]) is declared outside [fstate.cc].  The file uses
    three things of it: comparison, the conversion to its printed form
    ([(string) hash]) and [parseHash], which throws on a malformed
    string. *)

Class HashOps : Type := {
  Hash : Type;
  Hash_eq_dec :: EqDecision Hash;
  parseHash : string → option Hash;
  printHash : Hash → string
}.

(** ** Errors and outcomes

    Every failure of [fstate.cc] is a C++ exception.  The constructors
    name the error kinds; the comment gives the message the source
    throws. *)

Inductive Error : Type :=
| SysError (what : string)            (* SysError(...): a failed system call *)
| BuildError (what : string)          (* "unable to wait for child", "unable to build package" *)
| PlatformMismatch (required host : string)  (* "a `%1%' is required, but I am a `%2%'" *)
| BadTerm (what : string) (t : ATerm) (* badTerm(what, t) *)
| BadHash (s : string)                (* thrown by parseHash *)
| StoreError (what : string)          (* the term of an id cannot be found or read *)
| OutputObstructed (path : string)    (* "path `%1%' exists" *)
| BuildIncomplete (path : string)     (* "path `%1%' does not exist" *)
| PathObstructed (path : string)      (* "path `%1%' obstructed" *)
| EmptySlice.                         (* "empty slice" *)

(** [Done a]: normal return; [Throw e]: an exception leaves the function;
    [Diverge]: the bounded model ran out of steps. *)
Inductive Outcome (A : Type) : Type :=
| Done (a : A)
| Throw (e : Error)
| Diverge.
Arguments Done {A} a.
Arguments Throw {A} e.
Arguments Diverge {A}.

Definition obind {A B} (o : Outcome A) (f : A → Outcome B) : Outcome B :=
  match o with
  | Done a => f a
  | Throw e => Throw e
  | Diverge => Diverge
  end.


(** ** Computations

    A computation over a world of type [W].  The world that comes back
    is the one the caller sees, also when an exception came out: effects
    that happened before a [throw] stay. *)
Definition M (W A : Type) : Type := W → W * Outcome A.

Definition ret {W A} (a : A) : M W A := λ w, (w, Done a).
Definition throw {W A} (e : Error) : M W A := λ w, (w, Throw e).
Definition diverge {W A} : M W A := λ w, (w, Diverge).
Definition bind {W A B} (m : M W A) (f : A → M W B) : M W B :=
  λ w, match m w with
       | (w', Done a) => f a w'
       | (w', Throw e) => (w', Throw e)
       | (w', Diverge) => (w', Diverge)
       end.
(** A step that reads nothing and changes nothing. *)
Definition lift {W A} (o : Outcome A) : M W A := λ w, (w, o).
(** A step that only reads the world. *)
Definition reading {W A} (f : W → Outcome A) : M W A := λ w, (w, f w).
Definition gets {W A} (f : W → A) : M W A := λ w, (w, Done (f w)).
Definition modify {W} (f : W → W) : M W unit := λ w, (f w, Done tt).

Notation "'let!' x ':=' m 'in' k" := (bind m (λ x, k))
  (at level 10, x pattern, m at level 100, k at level 200,
   format "'[v' 'let!'  x  ':='  m  'in' '/' k ']'").
Notation "m ';;;' k" := (bind m (λ _, k))
  (at level 100, k at level 200, right associativity,
   format "'[v' m  ';;;' '/' k ']'").

(** ** The world the program runs in *)

Section Model.
Context {hashOps : HashOps}.

(** What lies at a path: a plain directory (the working directory of a
    build), or a store object, known by the hash of its contents (what
    [hashPath] would compute for it). *)
Inductive Node : Type :=
| Dir
| Blob (content : Hash).

#[export] Instance Node_eq_dec : EqDecision Node.
Proof. solve_decision. Defined.

(** [Environment]: [map<string, string>]. *)
Abbreviation Environment := (gmap string string).

(** A record of the calls whose occurrence the properties below speak
    about.  It is written, never read, by the program. *)
Inductive Event : Type :=
| EvRunProgram (program : string) (env : Environment)
| EvRegisterPath (path : string) (id : Hash)
| EvExpandId (id : Hash) (path : string).

(** The disk is seen through two fields: [fs] tells which paths exist and
    what content lies there, [terms] how the file stored for an id reads.
    A program that runs can change both. *)
Record World : Type := mkWorld {
  fs : gmap string Node;                 (* the filesystem: which paths exist *)
  terms : gmap string (option ATerm);    (* printed id to the file stored for it:
                                            [Some t] when it reads as the term [t] *)
  dbPath2Id : gmap string string;        (* table dbPath2Id: path to printed id *)
  dbSuccessors : gmap string string;     (* table dbSuccessors: printed id to printed id *)
  counter : Z;                           (* [static int counter] of runProgram *)
  trace : list Event
}.

Definition setFs (f : gmap string Node) (w : World) : World :=
  mkWorld f (terms w) (dbPath2Id w) (dbSuccessors w) (counter w) (trace w).
Definition setPath2Id (d : gmap string string) (w : World) : World :=
  mkWorld (fs w) (terms w) d (dbSuccessors w) (counter w) (trace w).
Definition setTerms (t : gmap string (option ATerm)) (w : World) : World :=
  mkWorld (fs w) t (dbPath2Id w) (dbSuccessors w) (counter w) (trace w).
Definition setCounter (n : Z) (w : World) : World :=
  mkWorld (fs w) (terms w) (dbPath2Id w) (dbSuccessors w) n (trace w).

(** [counter++] on an [int]: after the largest value comes the smallest. *)
Definition nextCounter (n : Z) : Z :=
  if bool_decide (n = 2147483647%Z) then (-2147483648)%Z else (n + 1)%Z.
Definition logEvent (ev : Event) (w : World) : World :=
  mkWorld (fs w) (terms w) (dbPath2Id w) (dbSuccessors w) (counter w)
    (trace w ++ [ev]).

(** How a child process ended, as [waitpid] reports it:
    [WIFEXITED]/[WEXITSTATUS], or anything else. *)
Inductive WaitStatus : Type :=
| Exited (code : nat)
| Signaled (sig : nat).

(** The system calls of [runProgram] that can fail for reasons outside the
    model. *)
Inductive Syscall : Type :=
| ScPopen
| ScMkdir
| ScFork
| ScWaitpid.

(** What [fstate.cc] takes from its surroundings.
    - [thisSystem]: the host platform tag ([globals.hh]).
    - [pid]: [getpid()].
    - [syscallOK c w]: whether system call [c] succeeds in world [w].
    - [execle program envp cwd files]: what running [program] to its end
      does to the filesystem, and how it ends; [None] when [execle]
      returns, that is, fails.
    - [execleTerms program envp cwd ts]: what that run does to the files
      of the store that hold terms (a builder can rewrite or remove
      them).
    - [filterReferences files path paths] ([references.hh]).
    - [expandId id target] ([store.hh], the form with a target): installs
      the contents known under [id] at [target], or throws. *)
Class System : Type := {
  thisSystem : string;
  pid : nat;
  syscallOK : Syscall → World → bool;
  execle : string → list string → string → gmap string Node →
           option (gmap string Node * WaitStatus);
  execleTerms : string → list string → string →
                gmap string (option ATerm) → gmap string (option ATerm);
  filterReferences : gmap string Node → string → list string → list string;
  expandId : Hash → string → World → World * Outcome unit
}.

(** ** The store and the database, as [fstate.cc] uses them *)

(** [pathExists(path)] *)
Definition pathExists (path : string) (w : World) : bool :=
  bool_decide (is_Some (fs w !! path)).

(** Whether [p] is [dir] or lies below it. *)
Definition isUnder (dir p : string) : bool :=
  bool_decide (p = dir) || String.prefix (dir +:+ "/") p.

(** Modelled from the spec: [deletePath(path)] removes the path and
    everything below it. *)
Definition deletePath (path : string) (w : World) : World :=
  setFs (filter (λ kv, isUnder path kv.1 = false) (fs w)) w.

(** Modelled from the spec: [registerPath(path, id)] records the mapping
    from the path to the id in [dbPath2Id]. *)
Definition registerPath (path : string) (id : Hash) : M World unit :=
  λ w, (logEvent (EvRegisterPath path id)
          (setPath2Id (<[path := printHash id]> (dbPath2Id w)) w), Done tt).

(** [queryDB(nixDB, dbSuccessors, id, idSucc)]: the key is the printed id. *)
Definition querySuccessor (id : Hash) (w : World) : option string :=
  dbSuccessors w !! printHash id.

(** [queryDB(nixDB, dbPath2Id, path, id)] *)
Definition queryPath2Id (path : string) (w : World) : option string :=
  dbPath2Id w !! path.

(** [termFromId(id)]: [expandId(id)] finds the file of the id, then
    [ATreadFromNamedFile] reads it; "cannot read aterm" when it does not
    read as a term. *)
Definition termFromId (id : Hash) : M World ATerm :=
  reading (λ w,
    match terms w !! printHash id with
    | None => Throw (StoreError "cannot expand id")
    | Some None => Throw (StoreError "cannot read aterm")
    | Some (Some t) => Done t
    end).

(** The content of [id] is present locally when some path of the
    filesystem holds it. *)
Definition contentPresent (id : Hash) (w : World) : bool :=
  bool_decide (Exists (λ kv, kv.2 = Blob id) (map_to_list (fs w))).

(** Modelled from the spec: [expandId(id, targetPath)] "materialises the
    content-addressed blob identified by id into targetPath.  Fails if
    the content is not present locally."  Per the realiser's scenario the
    path is then installed: it exists with that content and is registered
    under the id.  The spec does not say what happens to a target that
    is there already; this stand-in writes over it, [expandIdCareful]
    below refuses it.  [fstate.cc] itself is stated over any [expandId]
    (the field of [System]); the stand-ins serve the concrete runs. *)
Definition expandIdSpec (id : Hash) (target : string) : M World unit :=
  λ w, if contentPresent id w
       then (setPath2Id (<[target := printHash id]> (dbPath2Id w))
               (setFs (<[target := Blob id]> (fs w)) w), Done tt)
       else (w, Throw (StoreError "cannot expand id")).

(** Modelled from the spec: the same [expandId], for the case the spec
    leaves open, with the other choice: a target that is registered
    under the id already is left as it is, a target that is registered
    under another id, or is there without being registered, is refused. *)
Definition expandIdCareful (id : Hash) (target : string) : M World unit :=
  λ w, match dbPath2Id w !! target with
       | Some s =>
           if bool_decide (s = printHash id) then (w, Done tt)
           else (w, Throw (StoreError "target is registered under another id"))
       | None =>
           if pathExists target w
           then (w, Throw (StoreError "target exists"))
           else expandIdSpec id target w
       end.

(** ** Slices ([fstate.hh]) *)

Record SliceElem : Type := mkElem {
  elemPath : string;      (* elem.path *)
  elemId : Hash;          (* elem.id *)
  elemRefs : list Hash    (* elem.refs *)
}.

Record Slice : Type := mkSlice {
  roots : list Hash;
  elems : list SliceElem
}.

Definition emptySlice : Slice := mkSlice [] [].

Context {system : System}.

(** ** [runProgram] and its [AutoDelete] guard *)

(** [class AutoDelete]: the constructor keeps the path, the destructor
    calls [deletePath(path)].  The destructor runs when the scope of the
    guard is left, by a return or by an exception. *)
Definition withAutoDelete {A} (path : string) (body : M World A) : M World A :=
  λ w, match body w with
       | (w', Diverge) => (w', Diverge)
       | (w', r) => (deletePath path w', r)
       end.

(** [(format("/tmp/nix-%1%-%2%") % getpid() % counter++).str()] *)
Definition tmpDirName (n : Z) : string :=
  "/tmp/nix-" +:+ pretty pid +:+ "-" +:+ pretty n.

(** [mkdir(tmpDir.c_str(), 0777) == -1]: the call fails when the path
    exists, or when the system refuses it. *)
Definition mkdir (path : string) : M World unit :=
  λ w, if pathExists path w || negb (syscallOK ScMkdir w)
       then (w, Throw (SysError "creating directory"))
       else (setFs (<[path := Dir]> (fs w)) w, Done tt).

(** The order in which a [map<string, string>] is gone through: by
    ascending key. *)
Definition keyLe (a b : string * string) : Prop := String.le a.1 b.1.

#[export] Instance keyLe_dec : RelDecision keyLe.
Proof. intros a b. unfold keyLe. apply _. Defined.

(** The strings [NAME=VALUE] handed to [execle], one per entry of the
    map, in the order of the iteration over the map. *)
Definition envStrings (env : Environment) : list string :=
  (λ kv, kv.1 +:+ "=" +:+ kv.2) <$> merge_sort keyLe (map_to_list env).

(** The child (case 0 of the [switch]): change into the working
    directory, make the program executable, execute it.  When one of
    these fails the child prints a diagnostic and ends with [_exit(1)].
    The redirections of its output ([dup2]) do not touch the filesystem
    and are left out. *)
Definition child (program : string) (env : Environment) (tmpDir : string)
    (files : gmap string Node) : gmap string Node * WaitStatus :=
  if negb (bool_decide (is_Some (files !! tmpDir))) then (files, Exited 1)
  else if negb (bool_decide (is_Some (files !! program))) then (files, Exited 1)
  else match execle program (envStrings env) tmpDir files with
       | Some r => r
       | None => (files, Exited 1)
       end.

(** What the child does to the stored terms: nothing unless the program
    was executed. *)
Definition childTerms (program : string) (env : Environment) (tmpDir : string)
    (files : gmap string Node) (ts : gmap string (option ATerm))
    : gmap string (option ATerm) :=
  if negb (bool_decide (is_Some (files !! tmpDir))) then ts
  else if negb (bool_decide (is_Some (files !! program))) then ts
  else match execle program (envStrings env) tmpDir files with
       | Some _ => execleTerms program (envStrings env) tmpDir ts
       | None => ts
       end.

(** From [fork()] to the end of [runProgram]: the part of the body that
    runs under the guard. *)
Definition forkAndWait (program : string) (env : Environment)
    (tmpDir : string) : M World unit :=
  let! forked := gets (syscallOK ScFork) in
  if negb forked then throw (SysError "unable to fork")
  else
    let! status := (λ w, let r := child program env tmpDir (fs w) in
                         (setTerms (childTerms program env tmpDir (fs w) (terms w))
                            (setFs r.1 w), Done r.2)) in
    let! waited := gets (syscallOK ScWaitpid) in
    if negb waited then throw (BuildError "unable to wait for child")
    else match status with
         | Exited 0 => ret tt
         | _ => throw (BuildError "unable to build package")
         end.

Definition runProgram (program : string) (env : Environment) : M World unit :=
  modify (logEvent (EvRunProgram program env)) ;;;
  let! logFile := gets (syscallOK ScPopen) in
  if negb logFile then throw (SysError "creating log file")
  else
    let! n := gets counter in
    modify (setCounter (nextCounter n)) ;;;
    mkdir (tmpDirName n) ;;;
    withAutoDelete (tmpDirName n) (forkAndWait program env (tmpDirName n)).

(** ** [checkPlatform] *)

Definition checkPlatform (platform : string) : M World unit :=
  if bool_decide (platform ≠ thisSystem)
  then throw (PlatformMismatch platform thisSystem)
  else ret tt.

(** ** Parsing *)

(** [parseIds(ids, out)]: appends to [out]. *)
Fixpoint parseIds (ids : list ATerm) (out : list Hash) : Outcome (list Hash) :=
  match ids with
  | [] => Done out
  | t :: rest =>
      match matchStr t with
      | None => Throw (BadTerm "not an id" t)
      | Some s =>
          match parseHash s with
          | None => Throw (BadHash s)
          | Some h => parseIds rest (out ++ [h])
          end
      end
  end.

(** The [while] loop of [parseSlice] over the elements. *)
Fixpoint parseElems (ts : list ATerm) (out : list SliceElem)
    : Outcome (list SliceElem) :=
  match ts with
  | [] => Done out
  | t :: rest =>
      match matchElem t with
      | None => Throw (BadTerm "not a slice element" t)
      | Some (s1, s2, rs) =>
          match parseHash s2 with
          | None => Throw (BadHash s2)
          | Some h =>
              obind (parseIds rs [])
                (λ rs', parseElems rest (out ++ [mkElem s1 h rs']))
          end
      end
  end.

Definition parseSlice (t : ATerm) : Outcome Slice :=
  match matchSlice t with
  | None => Throw (BadTerm "not a slice" t)
  | Some (rs, es) =>
      obind (parseIds rs [])
        (λ rs', obind (parseElems es []) (λ es', Done (mkSlice rs' es')))
  end.

(** ** [realiseSlice] *)

(** The first loop of [realiseSlice]: "Perhaps all paths already contain
    the right id?"  The result is the flag [missing]; the loop is left
    ([break]) at the first element that is not registered and does not
    exist. *)
Fixpoint checkInstalled (es : list SliceElem) : M World bool :=
  match es with
  | [] => ret false
  | elem :: rest =>
      let! found := gets (queryPath2Id (elemPath elem)) in
      match found with
      | None =>
          let! there := gets (pathExists (elemPath elem)) in
          if there then throw (PathObstructed (elemPath elem))
          else ret true
      | Some s =>
          match parseHash s with
          | None => throw (BadHash s)
          | Some h =>
              if bool_decide (h ≠ elemId elem)
              then throw (PathObstructed (elemPath elem))
              else checkInstalled rest
          end
      end
  end.

(** The second loop: "For each element, expand its id at its path." *)
Fixpoint expandElems (es : list SliceElem) : M World unit :=
  match es with
  | [] => ret tt
  | elem :: rest =>
      modify (logEvent (EvExpandId (elemId elem) (elemPath elem))) ;;;
      expandId (elemId elem) (elemPath elem) ;;;
      expandElems rest
  end.

Definition realiseSlice (slice : Slice) : M World unit :=
  if bool_decide (length (elems slice) = 0) then throw EmptySlice
  else
    let! missing := checkInstalled (elems slice) in
    if negb missing then ret tt
    else expandElems (elems slice).

(** Notions used to state what [realiseSlice] does.  An element is
    installed when its path is registered under its own id; it is
    obstructed when its path is registered under another id, or exists
    without being registered; it is missing when its path is neither
    registered nor there. *)
Definition installed (w : World) (elem : SliceElem) : Prop :=
  ∃ s, dbPath2Id w !! elemPath elem = Some s ∧ parseHash s = Some (elemId elem).

Definition obstructed (w : World) (elem : SliceElem) : Prop :=
  (∃ s h, dbPath2Id w !! elemPath elem = Some s ∧ parseHash s = Some h ∧
          h ≠ elemId elem) ∨
  (dbPath2Id w !! elemPath elem = None ∧ pathExists (elemPath elem) w = true).

Definition missing (w : World) (elem : SliceElem) : Prop :=
  dbPath2Id w !! elemPath elem = None ∧ pathExists (elemPath elem) w = false.

(** No path is listed with two different ids. *)
Definition pathsFunctional (slice : Slice) : Prop :=
  ∀ e1 e2, e1 ∈ elems slice → e2 ∈ elems slice →
           elemPath e1 = elemPath e2 → elemId e1 = elemId e2.

(** What [realiseSlice] needs of [expandId]: a call that returns has
    registered the target under the id, and no other path. *)
Definition expandIdRegisters : Prop :=
  ∀ id target w w',
    expandId id target w = (w', Done tt) →
    dbPath2Id w' = <[target := printHash id]> (dbPath2Id w).


(** ** [normaliseFState] *)

(** The successor loop:
    [while (queryDB(nixDB, dbSuccessors, id, idSucc)) id = parseHash(idSucc);]
    The source puts no bound on it; [fuel] bounds the model. *)
Fixpoint followSuccessors (fuel : nat) (id : Hash) : M World Hash :=
  match fuel with
  | 0 => diverge
  | S fuel' =>
      let! found := gets (querySuccessor id) in
      match found with
      | None => ret id
      | Some idSucc =>
          match parseHash idSucc with
          | None => throw (BadHash idSucc)
          | Some id' => followSuccessors fuel' id'
          end
      end
  end.

(** An edge of the successor index, as the loop reads it. *)
Definition succEdge (w : World) (a b : Hash) : Prop :=
  ∃ s, dbSuccessors w !! printHash a = Some s ∧ parseHash s = Some b.

(** "Realise inputs (and remember all input paths)": for each input id,
    normalise it, realise the slice, and collect its elements and their
    paths.  [norm] is the recursive call of [normaliseFState]. *)
Fixpoint realiseInputs (norm : Hash → M World Slice) (inIds : list Hash)
    (inElems : list SliceElem) (inPathsSet : gset string)
    : M World (list SliceElem * gset string) :=
  match inIds with
  | [] => ret (inElems, inPathsSet)
  | i :: rest =>
      let! slice := norm i in
      realiseSlice slice ;;;
      realiseInputs norm rest (inElems ++ elems slice)
        (inPathsSet ∪ list_to_set (elemPath <$> elems slice))
  end.

(** "Build the environment": [env[s1] = s2] for each binding in turn. *)
Fixpoint buildEnvironment (bnds : list ATerm) (env : Environment)
    : Outcome Environment :=
  match bnds with
  | [] => Done env
  | bnd :: rest =>
      match matchPair bnd with
      | None => Throw (BadTerm "tuple of strings expected" bnd)
      | Some (s1, s2) => buildEnvironment rest (<[s1 := s2]> env)
      end
  end.

(** The loop that fills [outPaths] from [outs]. *)
Fixpoint parseOutPaths (outs : list ATerm) (outPaths : list (string * Hash))
    : Outcome (list (string * Hash)) :=
  match outs with
  | [] => Done outPaths
  | t :: rest =>
      match matchPair t with
      | None => Throw (BadTerm "string expected" t)
      | Some (s1, s2) =>
          match parseHash s2 with
          | None => Throw (BadHash s2)
          | Some h => parseOutPaths rest (outPaths ++ [(s1, h)])
          end
      end
  end.

(** "Check that none of the output paths exist." *)
Fixpoint checkOutputs (outPaths : list (string * Hash)) : M World unit :=
  match outPaths with
  | [] => ret tt
  | (path, _) :: rest =>
      let! there := gets (pathExists path) in
      if there then throw (OutputObstructed path)
      else checkOutputs rest
  end.

(** "Check whether the output paths were created, and register each
    one."  The result of [filterReferences] goes into a local variable
    that nothing reads. *)
Fixpoint registerOutputs (outPaths : list (string * Hash))
    (inPaths : list string) (slice : Slice) : M World Slice :=
  match outPaths with
  | [] => ret slice
  | (path, id) :: rest =>
      let! there := gets (pathExists path) in
      if negb there then throw (BuildIncomplete path)
      else
        registerPath path id ;;;
        let slice' := mkSlice (roots slice ++ [id]) (elems slice) in
        let! _ := gets (λ w, filterReferences (fs w) path inPaths) in
        registerOutputs rest inPaths slice'
  end.

(** What the registration loop has done to the world once it has gone
    through [outPaths] (used to state its effect). *)
Definition registerAll (outPaths : list (string * Hash)) (w : World) : World :=
  foldl (λ w' o, (registerPath o.1 o.2 w').1) w outPaths.

(** From the check of the outputs to the end of [normaliseFState]. *)
Definition buildOutputs (builder : string) (env : Environment)
    (outPaths : list (string * Hash)) (inPaths : list string) : M World Slice :=
  checkOutputs outPaths ;;;
  runProgram builder env ;;;
  registerOutputs outPaths inPaths emptySlice.

(** The part of [normaliseFState] after "Then we it's a Derive node".
    [inPaths] is a copy of the set [inPathsSet]; its order plays no part,
    the list only goes to [filterReferences]. *)
Definition normaliseDerive (norm : Hash → M World Slice) (t : ATerm)
    : M World Slice :=
  match matchDerive t with
  | None => throw (BadTerm "not a derive" t)
  | Some d =>
      checkPlatform (d_platform d) ;;;
      let! inIds := lift (parseIds (d_ins d) []) in
      let! ins := realiseInputs norm inIds [] ∅ in
      let! env := lift (buildEnvironment (d_bnds d) ∅) in
      let! outPaths := lift (parseOutPaths (d_outs d) []) in
      buildOutputs (d_builder d) env outPaths (elements ins.2)
  end.

(** [normaliseFState(id)].  One unit of [fuel] is spent at each call;
    the successor loop of a call may take as many steps as the fuel that
    is left. *)
Fixpoint normaliseFState (fuel : nat) (id : Hash) : M World Slice :=
  match fuel with
  | 0 => diverge
  | S fuel' =>
      let! id' := followSuccessors fuel' id in
      let! t := termFromId id' in
      if isSliceAppl t then lift (parseSlice t)
      else normaliseDerive (normaliseFState fuel') t
  end.

(** ** Further functions of [fstate.cc] *)

(** [hash2fstate(hash)]: [ATmake("Include(<str>)", ((string) hash).c_str())] *)
Definition hash2fstate (h : Hash) : ATerm :=
  AAppl "Include" false [AStr (printHash h)].

Definition setSuccessors (d : gmap string string) (w : World) : World :=
  mkWorld (fs w) (terms w) (dbPath2Id w) d (counter w) (trace w).

(** [registerSuccessor(id1, id2)]: [setDB(nixDB, dbSuccessors, id1, id2)];
    keys and values of the table are printed ids. *)
Definition registerSuccessor (id1 id2 : Hash) : M World unit :=
  modify (λ w, setSuccessors
                 (<[printHash id1 := printHash id2]> (dbSuccessors w)) w).

(** ** The terms the parsers accept

    The terms that the patterns of [parseIds], [parseSlice] and of the
    binding loop match, built from the values the parsers return for
    them. *)

Definition idTerm (h : Hash) : ATerm := AStr (printHash h).

Definition elemTerm (e : SliceElem) : ATerm :=
  ATuple [AStr (elemPath e); idTerm (elemId e); AList (idTerm <$> elemRefs e)].

Definition sliceTerm (s : Slice) : ATerm :=
  AAppl "Slice" false
    [AList (idTerm <$> roots s); AList (elemTerm <$> elems s)].

(** Every id that occurs in a slice. *)
Definition sliceIds (s : Slice) : list Hash :=
  roots s ++ flat_map (λ e, elemId e :: elemRefs e) (elems s).

(** A term [t] parses as the id [h]. *)
Definition parsesAs (t : ATerm) (h : Hash) : Prop :=
  ∃ s, matchStr t = Some s ∧ parseHash s = Some h.

(** A computation keeps the successor index when it leaves
    [dbSuccessors] as it was, however it ends. *)
Definition keepsIndex {A} (m : M World A) : Prop :=
  ∀ w, dbSuccessors (m w).1 = dbSuccessors w.

(** [m'] does what [m] does whenever [m] returns or throws (used to
    compare a call with the same call under a larger bound). *)
Definition extends {A} (m m' : M World A) : Prop :=
  ∀ w w' r, m w = (w', r) → r ≠ Diverge → m' w = (w', r).

End Model.

(** ** A small concrete system

    Hashes are their printed form; the empty string is the one malformed
    hash.  The builders are a table: what each program does when run. *)

Module Toy.

#[export] Instance toyHash : HashOps := {|
  Hash := string;
  parseHash := λ s, if bool_decide (s = "") then None else Some s;
  printHash := λ h, h
|}.

Definition toyExecle (program : string) (envp : list string) (cwd : string)
    (files : gmap string Node) : option (gmap string Node * WaitStatus) :=
  if bool_decide (program = "/bin/touch-out") then
    Some (<["/s/out" := Blob "hout"]> (<[cwd +:+ "/scratch" := Dir]> files), Exited 0)
  else if bool_decide (program = "/bin/touch-other") then
    Some (<["/s/out" := Blob "hother"]> files, Exited 0)
  else if bool_decide (program = "/bin/lazy") then Some (files, Exited 0)
  else if bool_decide (program = "/bin/false") then Some (files, Exited 1)
  else None.

#[export] Instance toySystem : System := {|
  thisSystem := "i686-linux";
  pid := 4242;
  syscallOK := λ _ _, true;
  execle := toyExecle;
  execleTerms := λ _ _ _ ts, ts;
  filterReferences := λ _ _ _, [];
  expandId := expandIdSpec
|}.

(** Scenario 3 of the spec: the simple derivation. *)
Definition simpleDerive (builder platform : string) : ATerm :=
  DeriveTerm [ATuple [AStr "/s/out"; AStr "hout"]] [] builder platform
    [ATuple [AStr "OUT"; AStr "/s/out"]].

Definition builders : gmap string Node :=
  {[ "/bin/touch-out" := Blob "hb1"; "/bin/touch-other" := Blob "hb2";
     "/bin/lazy" := Blob "hb3"; "/bin/false" := Blob "hb4" ]}.

(** A store that holds the term [t] under the id ["iderive"]. *)
Definition worldWith (files : gmap string Node) (t : ATerm) : World :=
  mkWorld files {[ "iderive" := Some t ]} ∅ ∅ 0%Z [].

(** The same filesystem with something at [/s/out] already. *)
Definition squatted : gmap string Node := <["/s/out" := Blob "hold"]> builders.

(** A derivation that declares two outputs; its builder makes the first. *)
Definition twoOutputs : list (string * Hash) :=
  [("/s/out", "hout"); ("/s/doc", "hdoc")].

(** A successor index that leads from ["iderive"] to an id without a
    stored term, and one with a cycle of two ids. *)
Definition danglingSuccessor : World :=
  mkWorld builders
    {[ "iderive" := Some (simpleDerive "/bin/touch-out" "i686-linux") ]}
    ∅ {[ "iderive" := "igone" ]} 0%Z [].

Definition cyclicSuccessors : World :=
  mkWorld builders
    {[ "ia" := Some (simpleDerive "/bin/touch-out" "i686-linux") ]}
    ∅ {[ "ia" := "ib"; "ib" := "ia" ]} 0%Z [].

(** Slices for the realiser, and a store that holds the contents ["ha"]
    and ["hb"]. *)
Definition cache : gmap string Node :=
  {[ "/cache/a" := Blob "ha"; "/cache/b" := Blob "hb" ]}.

Definition elemA : SliceElem := mkElem "/s/a" "ha" [].
Definition elemB : SliceElem := mkElem "/s/b" "hb" [].

Definition sliceAB : Slice := mkSlice ["ha"] [elemA; elemB].

(** One path listed with two ids. *)
Definition sliceTwice : Slice :=
  mkSlice ["ha"] [mkElem "/s/a" "ha" []; mkElem "/s/a" "hb" []].

Definition storeWorld (files : gmap string Node)
    (registered : gmap string string) : World :=
  mkWorld files ∅ registered ∅ 0%Z [].

(** The world in which the registration loop starts: the outputs were
    checked and the builder has run. *)
Definition built (builder : string) (outPaths : list (string * Hash)) : World :=
  ((checkOutputs outPaths ;;; runProgram builder ∅) (storeWorld builders ∅)).1.

(** Both paths are registered under their ids; the content at [/s/a] is
    not the one of its id. *)
Definition tampered : World :=
  storeWorld (<["/s/a" := Blob "hx"]> (<["/s/b" := Blob "hb"]> cache))
    {[ "/s/a" := "ha"; "/s/b" := "hb" ]}.

(** A derivation whose one input is the simple derivation, stored under
    ["iouter"] beside it. *)
Definition outerDerive : ATerm :=
  DeriveTerm [ATuple [AStr "/s/app"; AStr "happ"]] [AStr "iderive"]
    "/bin/lazy" "i686-linux" [].

Definition nestedWorld : World :=
  mkWorld builders
    {[ "iderive" := Some (simpleDerive "/bin/touch-out" "i686-linux");
       "iouter" := Some outerDerive ]}
    ∅ ∅ 0%Z [].

(** A store with the slice of [/s/a] and [/s/b] under ["islice"], reached
    from ["ia"] through ["ib"]; under ["ia"] itself lies no term. *)
Definition chainWorld : World :=
  mkWorld cache
    {[ "islice" := Some (sliceTerm sliceAB) ]}
    ∅ {[ "ia" := "ib"; "ib" := "islice" ]} 0%Z [].

(** A successor index whose chain from ["ia"] ends in a string that is
    not a hash. *)
Definition malformedSuccessor : World :=
  mkWorld cache ∅ ∅ {[ "ia" := "ib"; "ib" := "" ]} 0%Z [].

(** A store with two terms that are neither a slice nor a derivation: an
    [Include] under ["iinc"], the string ["Slice"] under ["istr"]. *)
Definition oddTerms : World :=
  mkWorld builders
    {[ "iinc" := Some (hash2fstate "iderive"); "istr" := Some (AStr "Slice") ]}
    ∅ ∅ 0%Z [].

(** Both elements of the slice are installed. *)
Definition installedAB : World :=
  storeWorld (<["/s/a" := Blob "ha"]> (<["/s/b" := Blob "hb"]> cache))
    {[ "/s/a" := "ha"; "/s/b" := "hb" ]}.

(** The content of ["hb"] is not there. *)
Definition halfCache : gmap string Node := {[ "/cache/a" := Blob "ha" ]}.

(** Bindings that give [OUT] twice. *)
Definition twoBindings : list ATerm :=
  [ATuple [AStr "OUT"; AStr "/s/old"]; ATuple [AStr "HOME"; AStr "/"];
   ATuple [AStr "OUT"; AStr "/s/out"]].

(** The small system with the [expandId] that refuses a target in use. *)
Definition carefulSystem : System := {|
  thisSystem := "i686-linux";
  pid := 4242;
  syscallOK := λ _ _, true;
  execle := toyExecle;
  execleTerms := λ _ _ _ ts, ts;
  filterReferences := λ _ _ _, [];
  expandId := expandIdCareful
|}.

(** The small system with builders that remove the term of the
    derivation they were built from. *)
Definition forgetfulSystem : System := {|
  thisSystem := "i686-linux";
  pid := 4242;
  syscallOK := λ _ _, true;
  execle := toyExecle;
  execleTerms := λ _ _ _ ts, delete "iderive" ts;
  filterReferences := λ _ _ _, [];
  expandId := expandIdSpec
|}.

(** A derivation for another platform under ["iderive"], which has the
    slice under ["islice"] as its successor. *)
Definition shadowedDerive : World :=
  mkWorld cache
    {[ "iderive" := Some (simpleDerive "/bin/touch-out" "other");
       "islice" := Some (sliceTerm sliceAB) ]}
    ∅ {[ "iderive" := "islice" ]} 0%Z [].

(** Two declared outputs, the one the builder does not make first. *)
Definition docFirst : list (string * Hash) :=
  [("/s/doc", "hdoc"); ("/s/out", "hout")].

(** [/s/a] is installed, [/s/b] is registered under another id. *)
Definition wrongId : World :=
  storeWorld cache {[ "/s/a" := "ha"; "/s/b" := "hx" ]}.

End Toy.

(** * Properties *)

Section Facts.
Context {hashOps : HashOps} {system : System}.

Implicit Types (w : World) (id : Hash) (path : string) (fuel : nat).

(** ** The monad *)

Lemma bind_done {A B} (m : M World A) (f : A → M World B) w w' a :
  m w = (w', Done a) → bind m f w = f a w'.
Proof. intros E. unfold bind. by rewrite E. Qed.

Lemma bind_throw {A B} (m : M World A) (f : A → M World B) w w' e :
  m w = (w', Throw e) → bind m f w = (w', Throw e).
Proof. intros E. unfold bind. by rewrite E. Qed.

Lemma bind_diverge {A B} (m : M World A) (f : A → M World B) w w' :
  m w = (w', Diverge) → bind m f w = (w', Diverge).
Proof. intros E. unfold bind. by rewrite E. Qed.

(** ** The successor loop only reads *)

Lemma followSuccessors_world fuel id w :
  (followSuccessors fuel id w).1 = w.
Proof.
  revert id. induction fuel as [|fuel IH]; intros id; [done|].
  simpl. unfold bind, gets. destruct (querySuccessor id w) as [s|]; [|done].
  destruct (parseHash s) as [id'|]; [apply IH | done].
Qed.

Lemma followSuccessors_end fuel id w :
  querySuccessor id w = None → followSuccessors (S fuel) id w = (w, Done id).
Proof. intros E. simpl. unfold bind, gets. by rewrite E. Qed.

(** ** Unfolding [normaliseFState] at a [Derive] node *)

Lemma normaliseFState_load fuel id id' w t :
  followSuccessors fuel id w = (w, Done id') →
  terms w !! printHash id' = Some (Some t) →
  normaliseFState (S fuel) id w =
    (if isSliceAppl t then lift (parseSlice t)
     else normaliseDerive (normaliseFState fuel) t) w.
Proof.
  intros Hs Ht. simpl. rewrite (bind_done _ _ _ _ _ Hs).
  unfold termFromId, reading, bind. by rewrite Ht.
Qed.

Lemma normaliseFState_derive fuel id id' w outs ins builder platform bnds :
  followSuccessors fuel id w = (w, Done id') →
  terms w !! printHash id' =
    Some (Some (DeriveTerm outs ins builder platform bnds)) →
  normaliseFState (S fuel) id w =
    (checkPlatform platform ;;;
     let! inIds := lift (parseIds ins []) in
     let! inputs := realiseInputs (normaliseFState fuel) inIds [] ∅ in
     let! env := lift (buildEnvironment bnds ∅) in
     let! outPaths := lift (parseOutPaths outs []) in
     buildOutputs builder env outPaths (elements inputs.2)) w.
Proof. intros Hs Ht. by rewrite (normaliseFState_load _ _ _ _ _ Hs Ht). Qed.

(** ** More fuel changes nothing once a call has ended *)

Lemma extends_refl {A} (m : M World A) : extends m m.
Proof. by intros w w' r. Qed.

Lemma extends_bind {A B} (m m' : M World A) (f f' : A → M World B) :
  extends m m' → (∀ a, extends (f a) (f' a)) →
  extends (bind m f) (bind m' f').
Proof.
  intros Hm Hf w w' r. unfold bind.
  destruct (m w) as [w1 [a|e|]] eqn:Em; intros Hr Hd.
  - rewrite (Hm _ _ _ Em) by done. by apply Hf.
  - rewrite (Hm _ _ _ Em) by done. done.
  - injection Hr as <- <-. done.
Qed.

Lemma followSuccessors_extends fuel id :
  extends (followSuccessors fuel id) (followSuccessors (S fuel) id).
Proof.
  revert id. induction fuel as [|fuel IH]; intros id.
  - intros w w' r [= <- <-]. done.
  - change (followSuccessors (S (S fuel)) id) with
      (let! found := gets (querySuccessor id) in
       match found with
       | None => ret id
       | Some idSucc =>
           match parseHash idSucc with
           | None => throw (BadHash idSucc)
           | Some id' => followSuccessors (S fuel) id'
           end
       end).
    simpl. apply extends_bind; [apply extends_refl|].
    intros [s|]; [|apply extends_refl].
    destruct (parseHash s) as [id'|]; [apply IH|apply extends_refl].
Qed.

Lemma realiseInputs_extends norm norm' inIds inElems inPathsSet :
  (∀ i, extends (norm i) (norm' i)) →
  extends (realiseInputs norm inIds inElems inPathsSet)
          (realiseInputs norm' inIds inElems inPathsSet).
Proof.
  intros Hn. revert inElems inPathsSet.
  induction inIds as [|i rest IH]; intros inElems inPathsSet.
  - apply extends_refl.
  - simpl. apply extends_bind; [apply Hn|]. intros slice.
    apply extends_bind; [apply extends_refl|]. intros _. apply IH.
Qed.

Lemma normaliseDerive_extends norm norm' t :
  (∀ i, extends (norm i) (norm' i)) →
  extends (normaliseDerive norm t) (normaliseDerive norm' t).
Proof.
  intros Hn. unfold normaliseDerive.
  destruct (matchDerive t) as [d|]; [|apply extends_refl].
  apply extends_bind; [apply extends_refl|]. intros _.
  apply extends_bind; [apply extends_refl|]. intros inIds.
  apply extends_bind; [by apply realiseInputs_extends|]. intros ins.
  apply extends_refl.
Qed.

Lemma normaliseFState_extends fuel id :
  extends (normaliseFState fuel id) (normaliseFState (S fuel) id).
Proof.
  revert id. induction fuel as [|fuel IH]; intros id.
  - intros w w' r [= <- <-]. done.
  - change (normaliseFState (S (S fuel)) id) with
      (let! id' := followSuccessors (S fuel) id in
       let! t := termFromId id' in
       if isSliceAppl t then lift (parseSlice t)
       else normaliseDerive (normaliseFState (S fuel)) t).
    simpl. apply extends_bind; [apply followSuccessors_extends|]. intros id'.
    apply extends_bind; [apply extends_refl|]. intros t.
    destruct (isSliceAppl t); [apply extends_refl|].
    by apply normaliseDerive_extends.
Qed.

(** A call that has returned or thrown with [fuel] does the same with
    any larger bound. *)
Lemma normaliseFState_fuel fuel fuel' id w w' (r : Outcome Slice) :
  (fuel ≤ fuel')%nat →
  normaliseFState fuel id w = (w', r) → r ≠ Diverge →
  normaliseFState fuel' id w = (w', r).
Proof.
  induction 1 as [|fuel' _ IH]; [done|].
  intros Hr Hd. apply normaliseFState_extends; [|done]. by apply IH.
Qed.

(** C5, as amended.  For every [Derive] expression that the call loads,
    that is, the term stored under the id [id'] at the end of the
    successor chain of [id] ([id] itself when it has no successor): when
    its platform field differs from the host platform [thisSystem],
    [normaliseFState] raises PlatformMismatch, and the world it leaves
    is the world it found: no input was realised, no builder ran, no
    path was registered. *)
Theorem normalise_platform_mismatch fuel id id' w outs ins builder platform bnds :
  followSuccessors fuel id w = (w, Done id') →
  terms w !! printHash id' =
    Some (Some (DeriveTerm outs ins builder platform bnds)) →
  platform ≠ thisSystem →
  normaliseFState (S fuel) id w =
    (w, Throw (PlatformMismatch platform thisSystem)).
Proof.
  intros Hs Ht Hp. rewrite (normaliseFState_derive _ _ _ _ _ _ _ _ _ Hs Ht).
  unfold checkPlatform. rewrite bool_decide_true by done. done.
Qed.

(** ** The check of the outputs *)

Lemma checkOutputs_clear (outPaths : list (string * Hash)) w :
  Forall (λ o, pathExists o.1 w = false) outPaths →
  checkOutputs outPaths w = (w, Done tt).
Proof.
  induction 1 as [|[path id] rest Hp _ IH]; [done|].
  simpl in *. unfold bind, gets. by rewrite Hp.
Qed.

(** The loop throws at the first output path that exists. *)
Lemma checkOutputs_first (pre post : list (string * Hash)) path id w :
  Forall (λ o, pathExists o.1 w = false) pre →
  pathExists path w = true →
  checkOutputs (pre ++ (path, id) :: post) w = (w, Throw (OutputObstructed path)).
Proof.
  induction 1 as [|[path' id'] rest Hp _ IH]; intros He; simpl.
  - unfold bind, gets. by rewrite He.
  - simpl in Hp. unfold bind, gets. rewrite Hp. by apply IH.
Qed.

(** A list with an existing path splits at the first one. *)
Lemma first_existing (outPaths : list (string * Hash)) path w :
  path ∈ outPaths.*1 → pathExists path w = true →
  ∃ pre path0 id0 post,
    outPaths = pre ++ (path0, id0) :: post ∧
    Forall (λ o, pathExists o.1 w = false) pre ∧
    pathExists path0 w = true.
Proof.
  induction outPaths as [|[p i] rest IH]; intros Hin He.
  - by apply elem_of_nil in Hin.
  - destruct (pathExists p w) eqn:Hp.
    + exists [], p, i, rest. by repeat split.
    + simpl in Hin. apply elem_of_cons in Hin as [->|Hin]; [congruence|].
      destruct (IH Hin He) as (pre & p0 & i0 & post & -> & Hpre & He0).
      exists ((p, i) :: pre), p0, i0, post. repeat split; [|done].
      by constructor.
Qed.

Lemma buildOutputs_obstructed builder env (outPaths : list (string * Hash))
    inPaths path w :
  path ∈ outPaths.*1 → pathExists path w = true →
  ∃ path0, path0 ∈ outPaths.*1 ∧ pathExists path0 w = true ∧
    buildOutputs builder env outPaths inPaths w =
      (w, Throw (OutputObstructed path0)).
Proof.
  intros Hin He.
  destruct (first_existing _ _ _ Hin He) as (pre & p0 & i0 & post & -> & Hpre & He0).
  exists p0. split; [|split; [done|]].
  - rewrite fmap_app. apply elem_of_app. right. simpl. apply elem_of_cons. by left.
  - unfold buildOutputs.
    by rewrite (bind_throw _ _ _ _ _ (checkOutputs_first _ _ _ _ _ Hpre He0)).
Qed.

(** C3, as amended.  Take a [Derive] expression that passes the platform
    check, whose inputs normalise and realise without error (leaving the
    world [w1]) and whose bindings and outputs parse.  If one of its
    declared output paths exists in [w1], [normaliseFState] raises
    OutputObstructed for a declared path that exists, and the world it
    leaves is [w1]: nothing happened after the inputs were realised, so
    [runProgram] was not invoked for this derivation. *)
Theorem normalise_output_obstructed fuel id id' w w1 outs ins builder bnds
    inIds inputs env (outPaths : list (string * Hash)) path :
  followSuccessors fuel id w = (w, Done id') →
  terms w !! printHash id' =
    Some (Some (DeriveTerm outs ins builder thisSystem bnds)) →
  parseIds ins [] = Done inIds →
  realiseInputs (normaliseFState fuel) inIds [] ∅ w = (w1, Done inputs) →
  buildEnvironment bnds ∅ = Done env →
  parseOutPaths outs [] = Done outPaths →
  path ∈ outPaths.*1 →
  pathExists path w1 = true →
  ∃ path0, path0 ∈ outPaths.*1 ∧ pathExists path0 w1 = true ∧
    normaliseFState (S fuel) id w = (w1, Throw (OutputObstructed path0)).
Proof.
  intros Hs Ht Hids Hin Henv Houts Hp He.
  destruct (buildOutputs_obstructed builder env outPaths (elements inputs.2)
              path w1 Hp He) as (p0 & Hp0 & He0 & Hb).
  exists p0. split; [done|]. split; [done|].
  rewrite (normaliseFState_derive _ _ _ _ _ _ _ _ _ Hs Ht).
  unfold checkPlatform. rewrite bool_decide_false by (intros Hne; by apply Hne).
  unfold bind at 1. unfold ret. unfold lift. rewrite Hids.
  unfold bind at 1. unfold bind at 1. rewrite Hin.
  rewrite Henv. unfold bind at 1. rewrite Houts. unfold bind at 1.
  exact Hb.
Qed.

(** ** The registration of the outputs *)

Lemma registerAll_fs (outPaths : list (string * Hash)) w :
  fs (registerAll outPaths w) = fs w.
Proof.
  revert w. induction outPaths as [|o rest IH]; intros w; [done|].
  unfold registerAll in *. simpl. by rewrite IH.
Qed.

Lemma registerAll_pathExists (outPaths : list (string * Hash)) path w :
  pathExists path (registerAll outPaths w) = pathExists path w.
Proof. unfold pathExists. by rewrite registerAll_fs. Qed.

Lemma registerAll_trace (outPaths : list (string * Hash)) w :
  trace (registerAll outPaths w) =
    trace w ++ ((λ o, EvRegisterPath o.1 o.2) <$> outPaths).
Proof.
  revert w. induction outPaths as [|o rest IH]; intros w.
  - simpl. by rewrite app_nil_r.
  - unfold registerAll in *. simpl. rewrite IH. simpl. by rewrite <- app_assoc.
Qed.

Lemma registerAll_db (outPaths : list (string * Hash)) w :
  dbPath2Id (registerAll outPaths w) =
    foldl (λ db o, <[o.1 := printHash o.2]> db) (dbPath2Id w) outPaths.
Proof.
  revert w. induction outPaths as [|o rest IH]; intros w; [done|].
  unfold registerAll in *. simpl. by rewrite IH.
Qed.

Lemma registerAll_app (xs ys : list (string * Hash)) w :
  registerAll (xs ++ ys) w = registerAll ys (registerAll xs w).
Proof. unfold registerAll. by rewrite foldl_app. Qed.

(** An entry of [dbPath2Id] that the loop changed belongs to one of the
    paths it went through. *)
Lemma registerAll_changed (outPaths : list (string * Hash)) path w :
  dbPath2Id (registerAll outPaths w) !! path ≠ dbPath2Id w !! path →
  path ∈ outPaths.*1.
Proof.
  revert w. induction outPaths as [|[p i] rest IH]; intros w Hne; [done|].
  simpl. destruct (decide (path = p)) as [->|Hp]; [by left|].
  right. apply (IH (registerPath p i w).1). intros Heq. apply Hne.
  change (registerAll ((p, i) :: rest) w)
    with (registerAll rest (registerPath p i w).1).
  rewrite Heq. simpl. by rewrite lookup_insert_ne.
Qed.

(** When every output exists the loop registers each pair in turn and
    appends the declared ids to the roots. *)
Lemma registerOutputs_all (outPaths : list (string * Hash)) inPaths slice w :
  Forall (λ o, pathExists o.1 w = true) outPaths →
  registerOutputs outPaths inPaths slice w =
    (registerAll outPaths w,
     Done (mkSlice (roots slice ++ outPaths.*2) (elems slice))).
Proof.
  revert slice w. induction outPaths as [|[p i] rest IH]; intros slice w Hall.
  - simpl. rewrite app_nil_r. by destruct slice.
  - inversion Hall as [|? ? Hp Hrest]; subst. simpl in Hp.
    simpl. unfold bind at 1. unfold gets at 1. rewrite Hp. simpl.
    unfold bind at 1. unfold registerPath at 1.
    unfold bind at 1. unfold gets at 1.
    rewrite IH.
    + simpl. by rewrite <- app_assoc.
    + eapply Forall_impl; [exact Hrest|]. intros o Ho. exact Ho.
Qed.

(** The loop throws at the first output that does not exist; the ones
    before it are registered by then. *)
Lemma registerOutputs_missing (pre post : list (string * Hash)) path id
    inPaths slice w :
  Forall (λ o, pathExists o.1 w = true) pre →
  pathExists path w = false →
  registerOutputs (pre ++ (path, id) :: post) inPaths slice w =
    (registerAll pre w, Throw (BuildIncomplete path)).
Proof.
  revert slice w. induction pre as [|[p i] rest IH]; intros slice w Hall Hm.
  - simpl. unfold bind, gets. by rewrite Hm.
  - inversion Hall as [|? ? Hp Hrest]; subst. simpl in Hp.
    simpl. unfold bind at 1. unfold gets at 1. rewrite Hp. simpl.
    unfold bind at 1. unfold registerPath at 1.
    unfold bind at 1. unfold gets at 1.
    rewrite IH; [done| |done].
    eapply Forall_impl; [exact Hrest|]. intros o Ho. exact Ho.
Qed.

(** A list of outputs either exists as a whole or splits at the first
    missing one. *)
Lemma first_missing (outPaths : list (string * Hash)) w :
  Forall (λ o, pathExists o.1 w = true) outPaths ∨
  ∃ pre path id post,
    outPaths = pre ++ (path, id) :: post ∧
    Forall (λ o, pathExists o.1 w = true) pre ∧
    pathExists path w = false.
Proof.
  induction outPaths as [|[p i] rest IH]; [by left|].
  destruct (pathExists p w) eqn:Hp.
  - destruct IH as [Hall|(pre & p0 & i0 & post & -> & Hpre & Hm)].
    + left. by constructor.
    + right. exists ((p, i) :: pre), p0, i0, post. repeat split; [|done].
      by constructor.
  - right. exists [], p, i, rest. by repeat split.
Qed.

Lemma buildOutputs_after_run builder env (outPaths : list (string * Hash))
    inPaths w w2 :
  (checkOutputs outPaths ;;; runProgram builder env) w = (w2, Done tt) →
  buildOutputs builder env outPaths inPaths w =
    registerOutputs outPaths inPaths emptySlice w2.
Proof.
  unfold buildOutputs, bind.
  destruct (checkOutputs outPaths w) as [w1 [[]| |]]; [|done..].
  destruct (runProgram builder env w1) as [w2' [[]| |]]; [|done..].
  by intros [= ->].
Qed.

(** C4. In the derive branch, once [runProgram] has returned, the declared
    outputs are gone through in order.  The pairs [registered] are the
    ones [registerPath] was called for: each of their paths exists.  Either
    these are all the outputs and the slice is returned, or the next
    output does not exist and BuildIncomplete is raised for it.  The loop
    leaves the filesystem as it is, and every entry of [dbPath2Id] it
    changed is the entry of a path that exists. *)
Theorem outputs_registered_only_if_exist builder env
    (outPaths : list (string * Hash)) inPaths w w2 :
  (checkOutputs outPaths ;;; runProgram builder env) w = (w2, Done tt) →
  ∃ registered w' r,
    buildOutputs builder env outPaths inPaths w = (w', r) ∧
    fs w' = fs w2 ∧
    trace w' = trace w2 ++ ((λ o, EvRegisterPath o.1 o.2) <$> registered) ∧
    Forall (λ o, pathExists o.1 w' = true) registered ∧
    (∀ path, dbPath2Id w' !! path ≠ dbPath2Id w2 !! path →
             pathExists path w' = true) ∧
    ((registered = outPaths ∧ r = Done (mkSlice outPaths.*2 [])) ∨
     (∃ path id post,
        outPaths = registered ++ (path, id) :: post ∧
        pathExists path w2 = false ∧
        r = Throw (BuildIncomplete path))).
Proof.
  intros Hrun. rewrite (buildOutputs_after_run _ _ _ inPaths _ _ Hrun).
  assert (Hreg : ∀ reg : list (string * Hash),
    Forall (λ o, pathExists o.1 w2 = true) reg →
    fs (registerAll reg w2) = fs w2 ∧
    trace (registerAll reg w2) =
      trace w2 ++ ((λ o, EvRegisterPath o.1 o.2) <$> reg) ∧
    Forall (λ o, pathExists o.1 (registerAll reg w2) = true) reg ∧
    (∀ path, dbPath2Id (registerAll reg w2) !! path ≠ dbPath2Id w2 !! path →
             pathExists path (registerAll reg w2) = true)).
  { intros reg Hall. split; [apply registerAll_fs|].
    split; [apply registerAll_trace|]. split.
    - eapply Forall_impl; [exact Hall|]. intros o Ho.
      by rewrite registerAll_pathExists.
    - intros path Hne. rewrite registerAll_pathExists.
      apply registerAll_changed in Hne.
      apply list_elem_of_fmap in Hne as (o & -> & Ho).
      by apply (proj1 (Forall_forall _ _) Hall). }
  destruct (first_missing outPaths w2)
    as [Hall|(pre & p0 & i0 & post & -> & Hpre & Hm)].
  - exists outPaths, (registerAll outPaths w2), (Done (mkSlice outPaths.*2 [])).
    split; [by rewrite registerOutputs_all|].
    destruct (Hreg _ Hall) as (? & ? & ? & ?). repeat split; try done.
    by left.
  - exists pre, (registerAll pre w2), (Throw (BuildIncomplete p0)).
    split; [by rewrite registerOutputs_missing|].
    destruct (Hreg _ Hpre) as (? & ? & ? & ?). repeat split; try done.
    right. by exists p0, i0, post.
Qed.

(** With distinct paths, the entry of each registered path is the id it
    was registered with. *)
Lemma registerAll_lookup (outPaths : list (string * Hash)) path id w :
  NoDup outPaths.*1 → (path, id) ∈ outPaths →
  dbPath2Id (registerAll outPaths w) !! path = Some (printHash id).
Proof.
  revert w. induction outPaths as [|[p i] rest IH]; intros w Hnd Hin.
  - by apply elem_of_nil in Hin.
  - simpl in Hnd. apply NoDup_cons in Hnd as [Hp Hnd].
    change (registerAll ((p, i) :: rest) w)
      with (registerAll rest (registerPath p i w).1).
    apply elem_of_cons in Hin as [[= -> ->]|Hin]; [|by apply IH].
    destruct (decide (dbPath2Id (registerAll rest (registerPath p i w).1) !! p
                      = dbPath2Id (registerPath p i w).1 !! p)) as [->|Hne].
    + simpl. by rewrite lookup_insert_eq.
    + by apply registerAll_changed in Hne.
Qed.

(** When every declared output path exists, whatever lies there, the
    derive branch calls [registerPath(path, declaredId)] for each
    declared pair in turn, returns the declared ids as the roots of the
    slice, and (the paths being distinct) leaves each path registered
    under its declared id. *)
Lemma outputs_registered_under_declared_id builder env
    (outPaths : list (string * Hash)) inPaths w w2 :
  (checkOutputs outPaths ;;; runProgram builder env) w = (w2, Done tt) →
  Forall (λ o, pathExists o.1 w2 = true) outPaths →
  ∃ w',
    buildOutputs builder env outPaths inPaths w =
      (w', Done (mkSlice outPaths.*2 [])) ∧
    fs w' = fs w2 ∧
    trace w' = trace w2 ++ ((λ o, EvRegisterPath o.1 o.2) <$> outPaths) ∧
    (NoDup outPaths.*1 →
     ∀ path id, (path, id) ∈ outPaths →
                dbPath2Id w' !! path = Some (printHash id)).
Proof.
  intros Hrun Hall. exists (registerAll outPaths w2).
  rewrite (buildOutputs_after_run _ _ _ inPaths _ _ Hrun).
  split; [by rewrite registerOutputs_all|].
  split; [apply registerAll_fs|]. split; [apply registerAll_trace|].
  intros Hnd path id Hin. by apply registerAll_lookup.
Qed.

(** ** The working directory of a build *)

Lemma isUnder_refl dir : isUnder dir dir = true.
Proof. unfold isUnder. by rewrite bool_decide_true. Qed.

Lemma deletePath_gone path p w :
  isUnder path p = true → fs (deletePath path w) !! p = None.
Proof.
  intros Hu. unfold deletePath. simpl. apply map_lookup_filter_None.
  right. intros x _. simpl. congruence.
Qed.

Lemma deletePath_other path p w :
  isUnder path p = false → fs (deletePath path w) !! p = fs w !! p.
Proof.
  intros Hu. unfold deletePath. simpl.
  destruct (fs w !! p) as [x|] eqn:E.
  - by apply map_lookup_filter_Some.
  - apply map_lookup_filter_None. by left.
Qed.

(** The guard: when its scope is left, nothing lies at the path or below
    it. *)
Lemma withAutoDelete_gone {A} path (body : M World A) w p :
  (withAutoDelete path body w).2 ≠ Diverge →
  isUnder path p = true →
  fs (withAutoDelete path body w).1 !! p = None.
Proof.
  unfold withAutoDelete. destruct (body w) as [w' [a|e|]]; simpl; intros Hd Hu.
  - by apply deletePath_gone.
  - by apply deletePath_gone.
  - done.
Qed.

Lemma withAutoDelete_outcome {A} path (body : M World A) w :
  (withAutoDelete path body w).2 = (body w).2.
Proof. unfold withAutoDelete. by destruct (body w) as [w' [a|e|]]. Qed.

(** The parent comes back from [fork] and [waitpid]: this part of the
    body returns or throws. *)
Lemma forkAndWait_returns program env tmpDir w :
  (forkAndWait program env tmpDir w).2 ≠ Diverge.
Proof.
  unfold forkAndWait, bind, gets, throw, ret. simpl.
  destruct (syscallOK ScFork w); simpl; [|done].
  destruct (syscallOK ScWaitpid _); simpl; [|done].
  destruct (child program env tmpDir (fs w)).2 as [[|n]|sg]; done.
Qed.

(** When the log pipe opens and [mkdir] succeeds, the rest of
    [runProgram] runs under the guard, in a world where the directory is
    there. *)
Lemma runProgram_guarded program env w :
  let w0 := logEvent (EvRunProgram program env) w in
  let tmpDir := tmpDirName (counter w) in
  let w1 := setCounter (nextCounter (counter w)) w0 in
  syscallOK ScPopen w0 = true →
  pathExists tmpDir w1 = false →
  syscallOK ScMkdir w1 = true →
  runProgram program env w =
    withAutoDelete tmpDir (forkAndWait program env tmpDir)
      (setFs (<[tmpDir := Dir]> (fs w)) w1).
Proof.
  intros w0 tmpDir w1 Hlog Hfree Hmk.
  unfold runProgram, bind, modify, gets. simpl. fold w0. rewrite Hlog. simpl.
  unfold mkdir. fold w1. fold tmpDir. rewrite Hfree, Hmk. simpl. done.
Qed.

(** C9. Every invocation of [runProgram] ends in one of two ways.  Either
    it threw before the working directory was made ("creating log file",
    "creating directory"), and the filesystem is as it was.  Or the
    directory was made and the guard was set up: then, whether the call
    returns or throws (fork failure, wait failure, builder failure), the
    directory [/tmp/nix-<pid>-<counter>] and everything below it is absent
    from the filesystem the caller gets back. *)
Theorem runProgram_deletes_tmpDir program env w :
  let tmpDir := tmpDirName (counter w) in
  let w' := (runProgram program env w).1 in
  let r := (runProgram program env w).2 in
  (fs w' = fs w ∧
   (r = Throw (SysError "creating log file") ∨
    r = Throw (SysError "creating directory")))
  ∨
  (r ≠ Diverge ∧ pathExists tmpDir w' = false ∧
   ∀ p, isUnder tmpDir p = true → fs w' !! p = None).
Proof.
  intros tmpDir w' r. subst w' r.
  set (w0 := logEvent (EvRunProgram program env) w).
  set (w1 := setCounter (nextCounter (counter w)) w0).
  destruct (syscallOK ScPopen w0) eqn:Hlog.
  2:{ left. unfold runProgram, bind, modify, gets. simpl. fold w0.
      rewrite Hlog. simpl. split; [done|by left]. }
  destruct (pathExists tmpDir w1 || negb (syscallOK ScMkdir w1)) eqn:Hmk.
  { left. unfold runProgram, bind, modify, gets. simpl. fold w0.
    rewrite Hlog. simpl. unfold mkdir. fold w1. fold tmpDir. rewrite Hmk.
    simpl. split; [done|by right]. }
  apply orb_false_iff in Hmk as [Hfree Hmk].
  apply negb_false_iff in Hmk.
  right. rewrite (runProgram_guarded program env w Hlog Hfree Hmk).
  fold tmpDir w0 w1.
  assert (Hr : (withAutoDelete tmpDir (forkAndWait program env tmpDir)
                  (setFs (<[tmpDir:=Dir]> (fs w)) w1)).2 ≠ Diverge).
  { rewrite withAutoDelete_outcome. apply forkAndWait_returns. }
  split; [done|]. split.
  - unfold pathExists. rewrite withAutoDelete_gone; [|done|apply isUnder_refl].
    apply bool_decide_false. by intros [x Hx].
  - intros p Hp. by apply withAutoDelete_gone.
Qed.

(** ** The installation check of [realiseSlice] *)

Lemma checkInstalled_all (es : list SliceElem) w :
  Forall (installed w) es → checkInstalled es w = (w, Done false).
Proof.
  induction 1 as [|e rest (s & Hs & Hh) _ IH]; [done|].
  simpl. unfold bind at 1. unfold gets at 1. unfold queryPath2Id.
  rewrite Hs, Hh. by rewrite bool_decide_false by (intros Hne; by apply Hne).
Qed.

Lemma checkInstalled_obstructed (pre post : list SliceElem) e w :
  Forall (installed w) pre → obstructed w e →
  checkInstalled (pre ++ e :: post) w = (w, Throw (PathObstructed (elemPath e))).
Proof.
  induction 1 as [|e' rest (s & Hs & Hh) _ IH]; intros Hob; simpl.
  - unfold bind at 1. unfold gets at 1. unfold queryPath2Id.
    destruct Hob as [(s & h & Hs & Hh & Hne)|[Hs He]]; rewrite Hs.
    + rewrite Hh. by rewrite bool_decide_true.
    + unfold bind, gets. by rewrite He.
  - unfold bind at 1. unfold gets at 1. unfold queryPath2Id.
    rewrite Hs, Hh. rewrite bool_decide_false by (intros Hne; by apply Hne).
    by apply IH.
Qed.

(** The loop is left at the first missing element: what comes after it
    is not looked at. *)
Lemma checkInstalled_missing (pre post : list SliceElem) e w :
  Forall (installed w) pre → missing w e →
  checkInstalled (pre ++ e :: post) w = (w, Done true).
Proof.
  induction 1 as [|e' rest (s & Hs & Hh) _ IH]; intros [Hm He]; simpl.
  - unfold bind at 1. unfold gets at 1. unfold queryPath2Id. rewrite Hm.
    unfold bind, gets. by rewrite He.
  - unfold bind at 1. unfold gets at 1. unfold queryPath2Id.
    rewrite Hs, Hh. rewrite bool_decide_false by (intros Hne; by apply Hne).
    by apply IH.
Qed.

Lemma checkInstalled_world (es : list SliceElem) w :
  (checkInstalled es w).1 = w.
Proof.
  induction es as [|e rest IH]; [done|].
  simpl. unfold bind at 1. unfold gets at 1.
  destruct (queryPath2Id (elemPath e) w) as [s|].
  - destruct (parseHash s) as [h|]; [|done]. by case_bool_decide.
  - unfold bind, gets. by destruct (pathExists (elemPath e) w).
Qed.

(** When the check says that nothing is missing, every element is
    installed. *)
Lemma checkInstalled_false (es : list SliceElem) w :
  (checkInstalled es w).2 = Done false → Forall (installed w) es.
Proof.
  induction es as [|e rest IH]; [by constructor|].
  simpl. unfold bind at 1. unfold gets at 1. unfold queryPath2Id.
  destruct (dbPath2Id w !! elemPath e) as [s|] eqn:Hs.
  - destruct (parseHash s) as [h|] eqn:Hh; [|done].
    case_bool_decide as Hne; [done|]. intros Hr.
    constructor; [|by apply IH].
    exists s. split; [done|]. rewrite Hh. f_equal.
    by destruct (decide (h = elemId e)).
  - unfold bind, gets. by destruct (pathExists (elemPath e) w).
Qed.

Lemma realiseSlice_nonempty s w :
  elems s ≠ [] →
  realiseSlice s w =
    (let! missing := checkInstalled (elems s) in
     if negb missing then ret tt else expandElems (elems s)) w.
Proof.
  intros Hne. unfold realiseSlice. rewrite bool_decide_false; [done|].
  by destruct (elems s).
Qed.

(** After a missing element the slice is handed to the expansion loop as
    it is, whatever lies at the paths of the later elements. *)
Lemma realiseSlice_expands (pre post : list SliceElem) e s w :
  elems s = pre ++ e :: post →
  Forall (installed w) pre → missing w e →
  realiseSlice s w = expandElems (elems s) w.
Proof.
  intros Hs Hpre Hm. rewrite realiseSlice_nonempty.
  - rewrite Hs at 1.
    by rewrite (bind_done _ _ _ _ _ (checkInstalled_missing _ _ _ _ Hpre Hm)).
  - rewrite Hs. by destruct pre.
Qed.

(** C6, as amended.  Let every element before [e] be installed.  If [e]
    is obstructed (its path is registered under a different id, or is not
    registered yet exists), [realiseSlice] raises PathObstructed for the
    path of [e] and changes nothing. *)
Theorem realiseSlice_obstructed (pre post : list SliceElem) e s w :
  elems s = pre ++ e :: post →
  Forall (installed w) pre →
  obstructed w e →
  realiseSlice s w = (w, Throw (PathObstructed (elemPath e))).
Proof.
  intros Hs Hpre Hob. rewrite realiseSlice_nonempty.
  - rewrite Hs.
    by rewrite (bind_throw _ _ _ _ _ (checkInstalled_obstructed _ _ _ _ Hpre Hob)).
  - rewrite Hs. by destruct pre.
Qed.

(** ** The expansion loop *)

Lemma expandElems_db (es : list SliceElem) w w' :
  expandIdRegisters →
  expandElems es w = (w', Done tt) →
  dbPath2Id w' =
    foldl (λ db e, <[elemPath e := printHash (elemId e)]> db) (dbPath2Id w) es.
Proof.
  intros Hreg. revert w. induction es as [|e rest IH]; intros w.
  - simpl. by intros [= ->].
  - simpl. unfold bind at 1. unfold modify at 1. unfold bind at 1.
    destruct (expandId (elemId e) (elemPath e) _) as [w1 [[]| |]] eqn:Hex;
      [|done..].
    intros Hrest. rewrite (IH _ Hrest). by rewrite (Hreg _ _ _ _ Hex).
Qed.

(** After the inserts of a list in which no path has two ids, each path
    of the list maps to the printed id listed with it. *)
Lemma foldl_insert_functional (es : list SliceElem) (db : gmap string string) e :
  (∀ e1 e2, e1 ∈ es → e2 ∈ es → elemPath e1 = elemPath e2 →
            elemId e1 = elemId e2) →
  e ∈ es →
  foldl (λ db e, <[elemPath e := printHash (elemId e)]> db) db es
    !! elemPath e = Some (printHash (elemId e)).
Proof.
  induction es as [|x es IH] using rev_ind; intros Hfun Hin.
  - by apply elem_of_nil in Hin.
  - rewrite foldl_app. simpl.
    destruct (decide (elemPath x = elemPath e)) as [Heq|Hne].
    + rewrite Heq, lookup_insert_eq. f_equal. f_equal.
      apply Hfun; [|done..]. apply elem_of_app. right. by apply list_elem_of_singleton.
    + rewrite lookup_insert_ne by done. apply IH.
      * intros e1 e2 H1 H2. apply Hfun; apply elem_of_app; by left.
      * apply elem_of_app in Hin as [Hin|Hin]; [done|].
        apply list_elem_of_singleton in Hin. by subst.
Qed.

(** Idempotence under the weaker reading of [expandId].  Let [expandId]
    register what it installs, let the
    printed form of the ids of the slice parse back, and let no path of
    the slice be listed with two different ids.  If [realiseSlice s]
    returns, leaving the world [w1], a second [realiseSlice s] returns
    too and leaves [w1] as it is (trace included: no element is
    expanded), so the two calls in sequence do what the first one does. *)
Lemma realiseSlice_idempotent s w w1 :
  expandIdRegisters →
  (∀ e, e ∈ elems s → parseHash (printHash (elemId e)) = Some (elemId e)) →
  pathsFunctional s →
  realiseSlice s w = (w1, Done tt) →
  realiseSlice s w1 = (w1, Done tt) ∧
  (realiseSlice s ;;; realiseSlice s) w = realiseSlice s w.
Proof.
  intros Hreg Hrt Hfun Hfirst.
  assert (Hne : elems s ≠ []).
  { intros Hnil. unfold realiseSlice in Hfirst. by rewrite Hnil in Hfirst. }
  assert (Hall : Forall (installed w1) (elems s)).
  { rewrite realiseSlice_nonempty in Hfirst by done.
    unfold bind in Hfirst.
    pose proof (checkInstalled_world (elems s) w) as Hw.
    pose proof (checkInstalled_false (elems s) w) as Hf.
    destruct (checkInstalled (elems s) w) as [w0 [[|]| |]]; simpl in *;
      subst w0; [| |done..].
    - apply Forall_forall. intros e He. exists (printHash (elemId e)).
      split; [|by apply Hrt].
      rewrite (expandElems_db _ _ _ Hreg Hfirst).
      by apply foldl_insert_functional.
    - injection Hfirst as <-. by apply Hf. }
  assert (Hsecond : realiseSlice s w1 = (w1, Done tt)).
  { rewrite realiseSlice_nonempty by done.
    by rewrite (bind_done _ _ _ _ _ (checkInstalled_all _ _ Hall)). }
  split; [done|]. by rewrite (bind_done _ _ _ _ _ Hfirst), Hfirst.
Qed.

(** ** Successors *)

Lemma followSuccessors_step fuel a b w :
  succEdge w a b → followSuccessors (S fuel) a w = followSuccessors fuel b w.
Proof.
  intros (s & Hs & Hb). simpl. unfold bind, gets, querySuccessor.
  by rewrite Hs, Hb.
Qed.

(** The loop looks at [dbSuccessors] and at nothing else: not at the
    terms of the ids it passes, not at the filesystem. *)
Lemma followSuccessors_reads_index fuel id w w2 :
  dbSuccessors w = dbSuccessors w2 →
  (followSuccessors fuel id w).2 = (followSuccessors fuel id w2).2.
Proof.
  intros Hdb. revert id. induction fuel as [|fuel IH]; intros id; [done|].
  simpl. unfold bind, gets, querySuccessor. rewrite Hdb.
  destruct (dbSuccessors w2 !! printHash id) as [s|]; [|done].
  destruct (parseHash s) as [id'|]; [apply IH|done].
Qed.

Lemma cycle_next w a :
  tc (succEdge w) a a → ∃ b, succEdge w a b ∧ tc (succEdge w) b b.
Proof.
  intros Hc. inversion Hc as [? ? Hab|? b ? Hab Hba]; subst.
  - exists a. split; [done|]. by apply tc_once.
  - exists b. split; [done|]. by eapply tc_r.
Qed.

Lemma followSuccessors_cycle w id :
  tc (succEdge w) id id → ∀ fuel, followSuccessors fuel id w = (w, Diverge).
Proof.
  intros Hc fuel. revert id Hc.
  induction fuel as [|fuel IH]; intros id Hc; [done|].
  destruct (cycle_next _ _ Hc) as (b & Hab & Hb).
  rewrite (followSuccessors_step _ _ _ _ Hab). by apply IH.
Qed.

(** C2, on the code: when the successor index has a cycle through [id],
    the successor loop of [normaliseFState id] has not ended after any
    number of steps. *)
Theorem successor_cycle_diverges w id :
  tc (succEdge w) id id → ∀ fuel, normaliseFState fuel id w = (w, Diverge).
Proof.
  intros Hc [|fuel]; [done|]. simpl.
  by rewrite (bind_diverge _ _ _ _ (followSuccessors_cycle _ _ Hc fuel)).
Qed.

(** C8, as amended.  The successor edges are followed as they are; only
    the term of the id at the end of the chain is loaded.  When that term
    is missing or does not read as a term, [normaliseFState] throws a
    store error and changes nothing: the failure is fatal, whatever is
    stored under the id the call started from. *)
Theorem normalise_broken_successor fuel id id' w :
  followSuccessors fuel id w = (w, Done id') →
  terms w !! printHash id' = None ∨ terms w !! printHash id' = Some None →
  ∃ what, normaliseFState (S fuel) id w = (w, Throw (StoreError what)).
Proof.
  intros Hs Ht. simpl. rewrite (bind_done _ _ _ _ _ Hs).
  unfold termFromId, reading, bind. destruct Ht as [-> | ->]; eauto.
Qed.

(** ** The slice of a derivation has no elements *)

Lemma registerOutputs_elems (outPaths : list (string * Hash)) inPaths
    slice slice' w w' :
  registerOutputs outPaths inPaths slice w = (w', Done slice') →
  elems slice' = elems slice.
Proof.
  revert slice w. induction outPaths as [|[p i] rest IH]; intros slice w.
  - simpl. by intros [= _ ->].
  - simpl. unfold bind at 1. unfold gets at 1.
    destruct (pathExists p w); simpl; [|done].
    unfold bind at 1. unfold registerPath at 1.
    unfold bind at 1. unfold gets at 1.
    intros Hr. by rewrite (IH _ _ Hr).
Qed.

Lemma normaliseDerive_elems norm t w w' slice :
  normaliseDerive norm t w = (w', Done slice) → elems slice = [].
Proof.
  unfold normaliseDerive. destruct (matchDerive t) as [d|]; [|done].
  unfold bind at 1.
  destruct (checkPlatform (d_platform d) w) as [w0 [[]| |]]; [|done..].
  unfold bind at 1. unfold lift at 1.
  destruct (parseIds (d_ins d) []) as [inIds| |]; [|done..].
  unfold bind at 1.
  destruct (realiseInputs norm inIds [] ∅ w0) as [w1 [ins| |]]; [|done..].
  unfold bind at 1. unfold lift at 1.
  destruct (buildEnvironment (d_bnds d) ∅) as [env| |]; [|done..].
  unfold bind at 1. unfold lift at 1.
  destruct (parseOutPaths (d_outs d) []) as [outPaths| |]; [|done..].
  unfold buildOutputs. unfold bind at 1.
  destruct (checkOutputs outPaths w1) as [w2 [[]| |]]; [|done..].
  unfold bind at 1.
  destruct (runProgram (d_builder d) env w2) as [w3 [[]| |]]; [|done..].
  intros Hr. by rewrite (registerOutputs_elems _ _ _ _ _ _ Hr).
Qed.

Lemma realiseSlice_empty s w :
  elems s = [] → realiseSlice s w = (w, Throw EmptySlice).
Proof. intros Hs. unfold realiseSlice. by rewrite Hs. Qed.

(** What the derive branch returns, the realiser refuses: the loop over
    the inputs of a derivation calls [realiseSlice] on the result of
    [normaliseFState], and on a slice built by the derive branch that
    call throws "empty slice". *)
Lemma derive_result_not_realisable norm t w w' slice :
  normaliseDerive norm t w = (w', Done slice) →
  realiseSlice slice w' = (w', Throw EmptySlice).
Proof. intros Hr. apply realiseSlice_empty. by eapply normaliseDerive_elems. Qed.

End Facts.

(** * Further properties of the code *)

Section Further.
Context {hashOps : HashOps} {system : System}.

Implicit Types (w : World) (id : Hash) (path : string) (fuel : nat).

(** ** [parseIds] and [parseSlice] *)

Lemma parseIds_acc (ids : list ATerm) (out : list Hash) :
  parseIds ids out = obind (parseIds ids []) (λ hs, Done (out ++ hs)).
Proof.
  revert out. induction ids as [|t rest IH]; intros out; simpl.
  - by rewrite app_nil_r.
  - destruct (matchStr t) as [s|]; [|done].
    destruct (parseHash s) as [h|]; [|done].
    rewrite (IH (out ++ [h])), (IH [h]).
    destruct (parseIds rest []) as [hs| |]; simpl; [|done..].
    by rewrite <- app_assoc.
Qed.

Lemma parseIds_done (ids : list ATerm) (hs : list Hash) :
  parseIds ids [] = Done hs → Forall2 parsesAs ids hs.
Proof.
  revert hs. induction ids as [|t rest IH]; intros hs; simpl.
  - intros [= <-]. constructor.
  - destruct (matchStr t) as [s|] eqn:Hs; [|done].
    destruct (parseHash s) as [h|] eqn:Hh; [|done].
    rewrite parseIds_acc.
    destruct (parseIds rest []) as [hs'| |]; simpl; [|done..].
    intros [= <-]. constructor; [by exists s|by apply IH].
Qed.

Lemma parseIds_all (ids : list ATerm) (hs out : list Hash) :
  Forall2 parsesAs ids hs → parseIds ids out = Done (out ++ hs).
Proof.
  intros Hall. revert out.
  induction Hall as [|t h rest hs' (s & Hs & Hh) _ IH]; intros out; simpl.
  - by rewrite app_nil_r.
  - rewrite Hs, Hh, IH. by rewrite <- app_assoc.
Qed.

(** X1. When [parseIds(ids, out)] returns, [out] has grown by one id per
    term of [ids], in the order of the terms, each the parse of the
    string its term holds; what [out] held before is kept in front. *)
Theorem parseIds_appends_in_order (ids : list ATerm) (out out' : list Hash) :
  parseIds ids out = Done out' →
  ∃ hs, out' = out ++ hs ∧ Forall2 parsesAs ids hs.
Proof.
  rewrite parseIds_acc.
  destruct (parseIds ids []) as [hs| |] eqn:E; simpl; [|done..].
  intros [= <-]. exists hs. split; [done|]. by apply parseIds_done.
Qed.

(** X2. [parseIds] stops at the first term that is not an id: after a
    run of terms that parse, a term that is not a string makes it throw
    "not an id" with that term, and a string that is not a hash makes
    [parseHash] throw, whatever follows in the list. *)
Theorem parseIds_first_bad (pre post : list ATerm) (t : ATerm)
    (hs out : list Hash) :
  Forall2 parsesAs pre hs →
  (matchStr t = None →
   parseIds (pre ++ t :: post) out = Throw (BadTerm "not an id" t)) ∧
  (∀ s, matchStr t = Some s → parseHash s = None →
        parseIds (pre ++ t :: post) out = Throw (BadHash s)).
Proof.
  intros Hall. revert out.
  induction Hall as [|t' h rest hs' (s' & Hs' & Hh') _ IH]; intros out.
  - split.
    + intros Hn. simpl. by rewrite Hn.
    + intros s Hs Hh. simpl. by rewrite Hs, Hh.
  - simpl. rewrite Hs', Hh'. apply IH.
Qed.

Lemma parseIds_idTerms (hs out : list Hash) :
  Forall (λ h, parseHash (printHash h) = Some h) hs →
  parseIds (idTerm <$> hs) out = Done (out ++ hs).
Proof.
  intros Hall. apply parseIds_all.
  induction Hall as [|h rest Hh _ IH]; simpl; constructor; [|done].
  by exists (printHash h).
Qed.

Lemma parseElems_elemTerms (es out : list SliceElem) :
  Forall (λ h, parseHash (printHash h) = Some h)
    (flat_map (λ e, elemId e :: elemRefs e) es) →
  parseElems (elemTerm <$> es) out = Done (out ++ es).
Proof.
  revert out. induction es as [|e rest IH]; intros out Hall; simpl.
  - by rewrite app_nil_r.
  - simpl in Hall. apply Forall_cons in Hall as [Hid Hall].
    apply Forall_app in Hall as [Hrefs Hrest].
    rewrite Hid. rewrite parseIds_idTerms by done. simpl.
    rewrite IH by done. rewrite <- app_assoc. by destruct e.
Qed.

(** X3. [parseSlice] gives back the slice a term was written from: for a
    slice whose ids print to strings that parse back, the term
    [Slice([roots], [(path, id, [refs]), ...])] parses to that slice,
    with roots, elements and references in their order. *)
Theorem parseSlice_sliceTerm (s : Slice) :
  Forall (λ h, parseHash (printHash h) = Some h) (sliceIds s) →
  parseSlice (sliceTerm s) = Done s.
Proof.
  unfold sliceIds. intros Hall. apply Forall_app in Hall as [Hroots Helems].
  unfold parseSlice, sliceTerm. simpl.
  rewrite parseIds_idTerms by done. simpl.
  rewrite parseElems_elemTerms by done. simpl. by destruct s.
Qed.

(** ** The successor index *)

Lemma followSuccessors_nsteps n a b w :
  nsteps (succEdge w) n a b → querySuccessor b w = None →
  ∀ fuel, (n < fuel)%nat → followSuccessors fuel a w = (w, Done b).
Proof.
  induction 1 as [a|n a c b Hac _ IH]; intros Hend fuel Hlt.
  - destruct fuel as [|fuel]; [lia|]. by apply followSuccessors_end.
  - destruct fuel as [|fuel]; [lia|].
    rewrite (followSuccessors_step _ _ _ _ Hac). apply IH; [done|lia].
Qed.

Lemma followSuccessors_nsteps_bad n a b s w :
  nsteps (succEdge w) n a b →
  querySuccessor b w = Some s → parseHash s = None →
  ∀ fuel, (n < fuel)%nat → followSuccessors fuel a w = (w, Throw (BadHash s)).
Proof.
  induction 1 as [a|n a c b Hac _ IH]; intros Hs Hbad fuel Hlt.
  - destruct fuel as [|fuel]; [lia|].
    simpl. unfold bind, gets. by rewrite Hs, Hbad.
  - destruct fuel as [|fuel]; [lia|].
    rewrite (followSuccessors_step _ _ _ _ Hac). apply IH; [done..|lia].
Qed.

Lemma normaliseFState_unfold fuel id :
  normaliseFState (S fuel) id =
    (let! id' := followSuccessors fuel id in
     let! t := termFromId id' in
     if isSliceAppl t then lift (parseSlice t)
     else normaliseDerive (normaliseFState fuel) t).
Proof. reflexivity. Qed.

(** X4. The successor loop ends on every finite chain: when the edges of
    [dbSuccessors] lead from [a] to an id [b] that has no successor, the
    loop returns [b] once the bound allows for the length of the chain,
    and it changes nothing. *)
Theorem followSuccessors_ends a b w :
  rtc (succEdge w) a b → querySuccessor b w = None →
  ∃ n, ∀ fuel, (n ≤ fuel)%nat → followSuccessors fuel a w = (w, Done b).
Proof.
  intros Hc Hend. apply rtc_nsteps_1 in Hc as [n Hn].
  exists (S n). intros fuel Hle.
  apply (followSuccessors_nsteps _ _ _ _ Hn Hend). lia.
Qed.

(** X5. The successor shortcut: when the chain from [a] ends at an id
    whose stored term is a [Slice] application, [normaliseFState a]
    returns what [parseSlice] makes of that term and changes nothing.
    The term stored under [a] itself, if any, is not looked at. *)
Theorem normalise_follows_successors_to_slice a b t w :
  rtc (succEdge w) a b → querySuccessor b w = None →
  terms w !! printHash b = Some (Some t) →
  isSliceAppl t = true →
  ∃ n, ∀ fuel, (n ≤ fuel)%nat →
       normaliseFState fuel a w = (w, parseSlice t).
Proof.
  intros Hc Hend Ht Hsl. apply rtc_nsteps_1 in Hc as [n Hn].
  exists (S (S n)). intros fuel Hle.
  destruct fuel as [|fuel]; [lia|].
  rewrite (normaliseFState_load fuel a b w t); [by rewrite Hsl| |done].
  apply (followSuccessors_nsteps _ _ _ _ Hn Hend). lia.
Qed.

(** X6. An entry of [dbSuccessors] that is not a hash is fatal: when the
    chain from [a] reaches an id whose successor string [parseHash]
    refuses, [normaliseFState a] throws the error of [parseHash]; no
    term is loaded and nothing changes. *)
Theorem normalise_malformed_successor a b s w :
  rtc (succEdge w) a b →
  querySuccessor b w = Some s → parseHash s = None →
  ∃ n, ∀ fuel, (n ≤ fuel)%nat →
       normaliseFState fuel a w = (w, Throw (BadHash s)).
Proof.
  intros Hc Hs Hbad. apply rtc_nsteps_1 in Hc as [n Hn].
  exists (S (S n)). intros fuel Hle.
  destruct fuel as [|fuel]; [lia|].
  rewrite normaliseFState_unfold.
  apply bind_throw.
  apply (followSuccessors_nsteps_bad _ _ _ _ _ Hn Hs Hbad). lia.
Qed.

(** Normalising an id that has a successor is normalising the
    successor. *)
Lemma normaliseFState_successor fuel a b w w' (r : Outcome Slice) :
  succEdge w a b →
  normaliseFState (S fuel) b w = (w', r) → r ≠ Diverge →
  normaliseFState (S (S fuel)) a w = (w', r).
Proof.
  intros Hab. rewrite (normaliseFState_unfold (S fuel) a).
  rewrite (normaliseFState_unfold fuel b).
  unfold bind at 1 3. rewrite (followSuccessors_step _ _ _ _ Hab).
  destruct (followSuccessors fuel b w) as [w0 [id'| |]]; [|done..].
  apply extends_bind; [apply extends_refl|]. intros t.
  destruct (isSliceAppl t); [apply extends_refl|].
  apply normaliseDerive_extends. intros i. apply normaliseFState_extends.
Qed.

(** X7. Successor soundness along a chain: when [n] edges of
    [dbSuccessors] lead from [a] to [b], whatever [normaliseFState b]
    does (the slice or the error, and the world it leaves),
    [normaliseFState a] does too, with [n] more steps of the bound. *)
Theorem normalise_along_successors n fuel a b w w' (r : Outcome Slice) :
  nsteps (succEdge w) n a b →
  normaliseFState (S fuel) b w = (w', r) → r ≠ Diverge →
  normaliseFState (S (n + fuel)) a w = (w', r).
Proof.
  induction 1 as [a|n a c b Hac _ IH]; intros Hr Hd; [done|].
  apply (normaliseFState_successor _ _ _ _ _ _ Hac); [|done].
  by apply IH.
Qed.

(** X8. [registerSuccessor(a, b)] makes [normaliseFState a] do what
    [normaliseFState b] does: in the world the registration leaves, a
    call on [a] ends as the call on [b] ends (given that the printed
    form of [b] parses back to [b]). *)
Theorem registerSuccessor_redirects fuel a b w w' (r : Outcome Slice) :
  parseHash (printHash b) = Some b →
  normaliseFState (S fuel) b (registerSuccessor a b w).1 = (w', r) →
  r ≠ Diverge →
  normaliseFState (S (S fuel)) a (registerSuccessor a b w).1 = (w', r).
Proof.
  intros Hb. apply normaliseFState_successor.
  exists (printHash b). split; [|done].
  simpl. by rewrite lookup_insert_eq.
Qed.

(** X9. [registerSuccessor] takes any pair of ids.  After
    [registerSuccessor(a, a)] the loop of [normaliseFState a] has not
    ended after any number of steps. *)
Theorem registerSuccessor_self_diverges a w :
  parseHash (printHash a) = Some a →
  ∀ fuel,
    normaliseFState fuel a (registerSuccessor a a w).1
    = ((registerSuccessor a a w).1, Diverge).
Proof.
  intros Ha [|fuel]; [done|].
  rewrite normaliseFState_unfold. apply bind_diverge.
  apply followSuccessors_cycle. apply tc_once.
  exists (printHash a). split; [|done]. simpl. by rewrite lookup_insert_eq.
Qed.

(** ** Terms that are neither a slice nor a derivation *)

(** X10. [normaliseFState] knows slices and derivations only.  The
    [Include] term that [hash2fstate] builds is refused: a call that
    loads it throws "not a derive" and changes nothing. *)
Theorem normalise_include_not_a_derive fuel id id' h w :
  followSuccessors fuel id w = (w, Done id') →
  terms w !! printHash id' = Some (Some (hash2fstate h)) →
  normaliseFState (S fuel) id w
  = (w, Throw (BadTerm "not a derive" (hash2fstate h))).
Proof.
  intros Hs Ht. by rewrite (normaliseFState_load _ _ _ _ _ Hs Ht).
Qed.

(** X11. The test for a slice looks at the name of the term only.  A
    term named [Slice] that has not the shape of a slice (a quoted
    symbol, another number of arguments) is sent to [parseSlice], and
    the call throws "not a slice", not "not a derive". *)
Theorem normalise_malformed_slice fuel id id' t w :
  followSuccessors fuel id w = (w, Done id') →
  terms w !! printHash id' = Some (Some t) →
  isSliceAppl t = true → matchSlice t = None →
  normaliseFState (S fuel) id w = (w, Throw (BadTerm "not a slice" t)).
Proof.
  intros Hs Ht Hn Hm. rewrite (normaliseFState_load _ _ _ _ _ Hs Ht).
  rewrite Hn. unfold lift, parseSlice. by rewrite Hm.
Qed.

(** ** The environment of a build *)

Lemma buildEnvironment_app (xs ys : list ATerm) (env : gmap string string) :
  buildEnvironment (xs ++ ys) env
  = obind (buildEnvironment xs env) (buildEnvironment ys).
Proof.
  revert env. induction xs as [|x xs IH]; intros env; [done|].
  simpl. destruct (matchPair x) as [[s1 s2]|]; [apply IH|done].
Qed.

Lemma buildEnvironment_unbound (bnds : list ATerm) (env env' : gmap string string) k :
  buildEnvironment bnds env = Done env' →
  (∀ t v, t ∈ bnds → matchPair t ≠ Some (k, v)) →
  env' !! k = env !! k.
Proof.
  revert env. induction bnds as [|t rest IH]; intros env; simpl.
  - by intros [= ->].
  - destruct (matchPair t) as [[s1 s2]|] eqn:Ht; [|done].
    intros Hr Hno. rewrite (IH _ Hr).
    + apply lookup_insert_ne. intros ->. apply (Hno t s2); [by left|done].
    + intros t' v Hin. apply Hno. by right.
Qed.

(** X12. The environment of a build: a name gets the value of its last
    binding in the list ("later wins"), and a name that no binding gives
    keeps what the map held before. *)
Theorem buildEnvironment_last_wins (bnds : list ATerm) (env env' : gmap string string) :
  buildEnvironment bnds env = Done env' →
  (∀ k, (∀ t v, t ∈ bnds → matchPair t ≠ Some (k, v)) →
        env' !! k = env !! k) ∧
  (∀ pre t k v post,
     bnds = pre ++ t :: post → matchPair t = Some (k, v) →
     (∀ t' v', t' ∈ post → matchPair t' ≠ Some (k, v')) →
     env' !! k = Some v).
Proof.
  intros Hr. split.
  - intros k Hno. by eapply buildEnvironment_unbound.
  - intros pre t k v post -> Ht Hno.
    rewrite buildEnvironment_app in Hr.
    destruct (buildEnvironment pre env) as [env1| |]; simpl in Hr; [|done..].
    rewrite Ht in Hr.
    rewrite (buildEnvironment_unbound _ _ _ _ Hr Hno).
    apply lookup_insert_eq.
Qed.

(** X13. The binding loop stops at the first term that is not a pair of
    strings and throws "tuple of strings expected" with that term. *)
Theorem buildEnvironment_first_bad (pre post : list ATerm) (t : ATerm)
    (env : gmap string string) :
  Forall (λ b, is_Some (matchPair b)) pre →
  matchPair t = None →
  buildEnvironment (pre ++ t :: post) env
  = Throw (BadTerm "tuple of strings expected" t).
Proof.
  intros Hpre Ht. revert env.
  induction Hpre as [|b rest [[s1 s2] Hb] _ IH]; intros env; simpl.
  - by rewrite Ht.
  - rewrite Hb. apply IH.
Qed.

(** ** [runProgram] *)

(** What [runProgram] can change: the disk and the counter.  It adds one
    entry to the trace, and never writes to the database. *)
Lemma runProgram_shape program env w :
  ∃ files ts n,
    (runProgram program env w).1
    = mkWorld files ts (dbPath2Id w) (dbSuccessors w) n
        (trace w ++ [EvRunProgram program env]).
Proof.
  unfold runProgram, bind, modify, gets, throw. simpl.
  destruct (syscallOK ScPopen _); simpl; [|eauto].
  unfold mkdir. destruct (_ || _); simpl; [eauto|].
  unfold withAutoDelete, forkAndWait, bind, gets, throw, ret. simpl.
  destruct (syscallOK ScFork _); simpl; [|eauto].
  destruct (syscallOK ScWaitpid _); simpl; [|eauto].
  destruct (child _ _ _ _).2 as [[|c]|sg]; simpl; eauto.
Qed.

Lemma runProgram_dbPath2Id program env w :
  dbPath2Id (runProgram program env w).1 = dbPath2Id w.
Proof. destruct (runProgram_shape program env w) as (f & ts & n & ->). done. Qed.

Lemma runProgram_dbSuccessors program env w :
  dbSuccessors (runProgram program env w).1 = dbSuccessors w.
Proof. destruct (runProgram_shape program env w) as (f & ts & n & ->). done. Qed.

Lemma runProgram_trace program env w :
  trace (runProgram program env w).1 = trace w ++ [EvRunProgram program env].
Proof. destruct (runProgram_shape program env w) as (f & ts & n & ->). done. Qed.

(** X15. [runProgram] returns normally only after a run that exited with
    status 0: the working directory did not exist and was made, the
    program was there, [execle] ran it in that directory with the
    environment's [NAME=VALUE] strings, and the filesystem the caller
    gets is the one the program left, without the working directory. *)
Theorem runProgram_returns_only_on_exit_0 program env w w' :
  runProgram program env w = (w', Done tt) →
  pathExists (tmpDirName (counter w)) w = false ∧
  is_Some (<[tmpDirName (counter w) := Dir]> (fs w) !! program) ∧
  ∃ files',
    execle program (envStrings env) (tmpDirName (counter w))
      (<[tmpDirName (counter w) := Dir]> (fs w))
    = Some (files', Exited 0) ∧
    fs w' = filter (λ kv, isUnder (tmpDirName (counter w)) kv.1 = false) files'.
Proof.
  unfold runProgram, bind, modify, gets, throw. simpl.
  destruct (syscallOK ScPopen _); simpl; [|done].
  unfold mkdir.
  destruct (pathExists _ _) eqn:Hfree; simpl; [done|].
  destruct (negb _); simpl; [done|].
  unfold withAutoDelete, forkAndWait, bind, gets, throw, ret. simpl.
  destruct (syscallOK ScFork _); simpl; [|done].
  destruct (syscallOK ScWaitpid _); simpl; [|done].
  unfold child.
  destruct (bool_decide (is_Some (<[_:=_]> (fs w) !! tmpDirName (counter w))));
    simpl; [|done].
  destruct (bool_decide (is_Some (<[_:=_]> (fs w) !! program))) eqn:Hprog;
    simpl; [|done].
  destruct (execle _ _ _ _) as [[files' st]|] eqn:Hex; simpl; [|done].
  destruct st as [[|c]|sg]; simpl; [|done..].
  intros [= <-]. split; [done|].
  split; [by apply bool_decide_eq_true in Hprog|].
  exists files'. by split.
Qed.

Lemma tmpDirName_inj (n m : Z) : tmpDirName n = tmpDirName m → n = m.
Proof.
  unfold tmpDirName. intros Heq.
  apply (inj (String.app "/tmp/nix-")) in Heq.
  apply (inj (String.app (pretty pid))) in Heq.
  apply (inj (String.app "-")) in Heq.
  by apply (inj pretty) in Heq.
Qed.

Lemma nextCounter_ne (n : Z) : nextCounter n ≠ n.
Proof. unfold nextCounter. case_bool_decide; lia. Qed.

(** A call that returns has moved the counter on by one step and has run
    the program in the directory named after the old counter. *)
Lemma runProgram_done_execle program env w w' :
  runProgram program env w = (w', Done tt) →
  counter w' = nextCounter (counter w) ∧
  ∃ files files',
    execle program (envStrings env) (tmpDirName (counter w)) files
    = Some (files', Exited 0).
Proof.
  unfold runProgram, bind, modify, gets, throw. simpl.
  destruct (syscallOK ScPopen _); simpl; [|done].
  unfold mkdir. destruct (_ || _); simpl; [done|].
  unfold withAutoDelete, forkAndWait, bind, gets, throw, ret. simpl.
  destruct (syscallOK ScFork _); simpl; [|done].
  destruct (syscallOK ScWaitpid _); simpl; [|done].
  unfold child.
  destruct (bool_decide (is_Some (<[_:=_]> (fs w) !! tmpDirName (counter w))));
    simpl; [|done].
  destruct (bool_decide (is_Some (<[_:=_]> (fs w) !! program))); simpl; [|done].
  destruct (execle _ _ _ _) as [[files' st]|] eqn:Hex; simpl; [|done].
  destruct st as [[|c]|sg]; simpl; [|done..].
  intros [= <-]. split; [done|]. eauto.
Qed.

(** X16. Two builds in a row do not share a working directory: when a
    call of [runProgram] returns and the next call, made in the world
    the first one left, returns too, each has executed its program, and
    the directory of the second run is not the directory of the first
    (the counter is an [int] that moves on by one at every call). *)
Theorem consecutive_builds_use_different_dirs program1 env1 program2 env2
    w w1 w2 :
  runProgram program1 env1 w = (w1, Done tt) →
  runProgram program2 env2 w1 = (w2, Done tt) →
  ∃ dir1 dir2 files1 files1' files2 files2',
    execle program1 (envStrings env1) dir1 files1 = Some (files1', Exited 0) ∧
    execle program2 (envStrings env2) dir2 files2 = Some (files2', Exited 0) ∧
    dir1 = tmpDirName (counter w) ∧
    dir2 = tmpDirName (counter w1) ∧
    dir1 ≠ dir2.
Proof.
  intros H1 H2.
  destruct (runProgram_done_execle _ _ _ _ H1) as (Hc & f1 & f1' & Hex1).
  destruct (runProgram_done_execle _ _ _ _ H2) as (_ & f2 & f2' & Hex2).
  exists (tmpDirName (counter w)), (tmpDirName (counter w1)), f1, f1', f2, f2'.
  repeat split; [done..|].
  intros Heq. apply tmpDirName_inj in Heq. rewrite Hc in Heq.
  symmetry in Heq. by apply nextCounter_ne in Heq.
Qed.

(** ** What a call leaves of the successor index *)

Lemma keepsIndex_bind {A B} (m : M World A) (k : A → M World B) :
  keepsIndex m → (∀ a, keepsIndex (k a)) → keepsIndex (bind m k).
Proof.
  intros Hm Hk w. unfold bind. specialize (Hm w).
  destruct (m w) as [w1 [a| |]]; simpl in *; [|done..].
  by rewrite (Hk a w1).
Qed.

Lemma keepsIndex_same {A} (m : M World A) :
  (∀ w, (m w).1 = w) → keepsIndex m.
Proof. intros Hm w. by rewrite Hm. Qed.

Lemma checkOutputs_world (outPaths : list (string * Hash)) w :
  (checkOutputs outPaths w).1 = w.
Proof.
  induction outPaths as [|[p i] rest IH]; [done|].
  simpl. unfold bind, gets. by destruct (pathExists p w).
Qed.

Lemma runProgram_keepsIndex program env : keepsIndex (runProgram program env).
Proof. intros w. apply runProgram_dbSuccessors. Qed.

Lemma registerOutputs_keepsIndex (outPaths : list (string * Hash)) inPaths slice :
  keepsIndex (registerOutputs outPaths inPaths slice).
Proof.
  revert slice. induction outPaths as [|[p i] rest IH]; intros slice.
  - by apply keepsIndex_same.
  - simpl. apply keepsIndex_bind; [by apply keepsIndex_same|].
    intros there. destruct there; simpl; [|by apply keepsIndex_same].
    apply keepsIndex_bind; [by intros w|]. intros _.
    apply keepsIndex_bind; [by apply keepsIndex_same|]. intros _. apply IH.
Qed.

Lemma buildOutputs_keepsIndex builder env (outPaths : list (string * Hash))
    inPaths :
  keepsIndex (buildOutputs builder env outPaths inPaths).
Proof.
  unfold buildOutputs.
  apply keepsIndex_bind; [apply keepsIndex_same, checkOutputs_world|].
  intros _. apply keepsIndex_bind; [apply runProgram_keepsIndex|].
  intros _. apply registerOutputs_keepsIndex.
Qed.

Lemma expandElems_keepsIndex (es : list SliceElem) :
  (∀ id target, keepsIndex (expandId id target)) →
  keepsIndex (expandElems es).
Proof.
  intros Hex. induction es as [|e rest IH]; [by apply keepsIndex_same|].
  simpl. apply keepsIndex_bind; [by intros w|]. intros _.
  apply keepsIndex_bind; [apply Hex|]. intros _. apply IH.
Qed.

Lemma realiseSlice_keepsIndex slice :
  (∀ id target, keepsIndex (expandId id target)) →
  keepsIndex (realiseSlice slice).
Proof.
  intros Hex. unfold realiseSlice.
  case_bool_decide; [by apply keepsIndex_same|].
  apply keepsIndex_bind; [apply keepsIndex_same, checkInstalled_world|].
  intros missing. destruct missing; simpl; [|by apply keepsIndex_same].
  by apply expandElems_keepsIndex.
Qed.

Lemma realiseInputs_keepsIndex norm inIds inElems inPathsSet :
  (∀ id target, keepsIndex (expandId id target)) →
  (∀ i, keepsIndex (norm i)) →
  keepsIndex (realiseInputs norm inIds inElems inPathsSet).
Proof.
  intros Hex Hn. revert inElems inPathsSet.
  induction inIds as [|i rest IH]; intros inElems inPathsSet.
  - by apply keepsIndex_same.
  - simpl. apply keepsIndex_bind; [apply Hn|]. intros slice.
    apply keepsIndex_bind; [by apply realiseSlice_keepsIndex|].
    intros _. apply IH.
Qed.

Lemma normaliseDerive_keepsIndex norm t :
  (∀ id target, keepsIndex (expandId id target)) →
  (∀ i, keepsIndex (norm i)) →
  keepsIndex (normaliseDerive norm t).
Proof.
  intros Hex Hn. unfold normaliseDerive.
  destruct (matchDerive t) as [d|]; [|by apply keepsIndex_same].
  apply keepsIndex_bind.
  { apply keepsIndex_same. intros w. unfold checkPlatform.
    by case_bool_decide. }
  intros _. apply keepsIndex_bind; [by apply keepsIndex_same|]. intros inIds.
  apply keepsIndex_bind; [by apply realiseInputs_keepsIndex|]. intros ins.
  apply keepsIndex_bind; [by apply keepsIndex_same|]. intros env.
  apply keepsIndex_bind; [by apply keepsIndex_same|]. intros outPaths.
  apply buildOutputs_keepsIndex.
Qed.

(** X17. [normaliseFState] records no successor: when [expandId] leaves
    the successor index alone, so does every call of [normaliseFState],
    however it ends.  The slice of a derivation that was built is not
    entered as the successor of the derivation. *)
Theorem normaliseFState_registers_no_successor fuel id w :
  (∀ h target, keepsIndex (expandId h target)) →
  dbSuccessors (normaliseFState fuel id w).1 = dbSuccessors w.
Proof.
  intros Hex. revert id w.
  induction fuel as [|fuel IH]; intros id w; [done|].
  revert w. fold (keepsIndex (normaliseFState (S fuel) id)).
  rewrite normaliseFState_unfold.
  apply keepsIndex_bind; [apply keepsIndex_same, followSuccessors_world|].
  intros id'. apply keepsIndex_bind; [by apply keepsIndex_same|]. intros t.
  destruct (isSliceAppl t); [by apply keepsIndex_same|].
  apply normaliseDerive_keepsIndex; [done|]. intros i w. apply IH.
Qed.

(** ** Builds that fail, builds that are repeated *)

(** X18. A build that fails registers nothing: when the check of the
    outputs or [runProgram] throws, the derive branch ends with that
    error, [dbPath2Id] is as it was, and the trace has grown by the call
    of [runProgram] at most: [registerPath] was not called. *)
Theorem failed_build_registers_nothing builder env
    (outPaths : list (string * Hash)) inPaths w w2 e :
  (checkOutputs outPaths ;;; runProgram builder env) w = (w2, Throw e) →
  buildOutputs builder env outPaths inPaths w = (w2, Throw e) ∧
  dbPath2Id w2 = dbPath2Id w ∧
  (trace w2 = trace w ∨ trace w2 = trace w ++ [EvRunProgram builder env]).
Proof.
  unfold buildOutputs, bind.
  pose proof (checkOutputs_world outPaths w) as Hw.
  destruct (checkOutputs outPaths w) as [w1 [[]|e1|]]; simpl in Hw; subst w1;
    [| |done].
  - pose proof (runProgram_dbPath2Id builder env w) as Hdb.
    pose proof (runProgram_trace builder env w) as Htr.
    destruct (runProgram builder env w) as [w3 [[]|e3|]]; simpl in *; [done| |done].
    intros [= -> ->]. split; [done|]. split; [done|]. by right.
  - intros [= -> ->]. split; [done|]. split; [done|]. by left.
Qed.

Lemma parseOutPaths_prefix (outs : list ATerm) (acc o : list (string * Hash)) :
  parseOutPaths outs acc = Done o → ∃ r, o = acc ++ r.
Proof.
  revert acc. induction outs as [|t rest IH]; intros acc; simpl.
  - intros [= <-]. exists []. by rewrite app_nil_r.
  - destruct (matchPair t) as [[s1 s2]|]; [|done].
    destruct (parseHash s2) as [h|]; [|done].
    intros Hr. destruct (IH _ Hr) as [r ->].
    exists ((s1, h) :: r). by rewrite <- app_assoc.
Qed.

(** When the registration loop returns, every output exists. *)
Lemma registerOutputs_done (outPaths : list (string * Hash)) inPaths
    slice slice' w w' :
  registerOutputs outPaths inPaths slice w = (w', Done slice') →
  Forall (λ o, pathExists o.1 w' = true) outPaths.
Proof.
  intros Hr.
  destruct (first_missing outPaths w)
    as [Hall|(pre & p0 & i0 & post & -> & Hpre & Hm)].
  - rewrite registerOutputs_all in Hr by done. injection Hr as <- _.
    eapply Forall_impl; [exact Hall|]. intros o Ho.
    by rewrite registerAll_pathExists.
  - by rewrite registerOutputs_missing in Hr.
Qed.

(** [normaliseFState] on a derivation without inputs. *)
Lemma normaliseFState_no_inputs fuel id id' w outs builder platform bnds :
  followSuccessors fuel id w = (w, Done id') →
  terms w !! printHash id' =
    Some (Some (DeriveTerm outs [] builder platform bnds)) →
  normaliseFState (S fuel) id w =
    if bool_decide (platform ≠ thisSystem)
    then (w, Throw (PlatformMismatch platform thisSystem))
    else match buildEnvironment bnds ∅ with
         | Done env =>
             match parseOutPaths outs [] with
             | Done outPaths =>
                 buildOutputs builder env outPaths (elements (∅ : gset string)) w
             | Throw e => (w, Throw e)
             | Diverge => (w, Diverge)
             end
         | Throw e => (w, Throw e)
         | Diverge => (w, Diverge)
         end.
Proof.
  intros Hs Ht. rewrite (normaliseFState_derive _ _ _ _ _ _ _ _ _ Hs Ht).
  unfold checkPlatform. case_bool_decide; [done|].
  unfold bind at 1. unfold ret at 1. unfold bind at 1. unfold lift at 1.
  simpl parseIds. cbv iota beta.
  unfold bind at 1. simpl realiseInputs. unfold ret at 1. cbv iota beta.
  unfold bind at 1. unfold lift at 1.
  destruct (buildEnvironment bnds ∅) as [env| |]; [|done..].
  unfold bind at 1. unfold lift at 1.
  by destruct (parseOutPaths outs []) as [outPaths| |].
Qed.

(** X19. A derivation is built once.  Take a derivation without inputs
    that declares at least one output.  If [normaliseFState] has
    normalised it and its term is still stored after the build, a second
    [normaliseFState] of the same id, in the world the first call left,
    raises OutputObstructed for the first declared output and changes
    nothing: no successor was recorded, so the derivation is loaded
    again and finds its own output in the way. *)
Theorem normalise_twice_obstructed fuel id id' w w' slice
    path sid outs builder platform bnds :
  followSuccessors fuel id w = (w, Done id') →
  terms w !! printHash id' =
    Some (Some (DeriveTerm (ATuple [AStr path; AStr sid] :: outs) []
                  builder platform bnds)) →
  normaliseFState (S fuel) id w = (w', Done slice) →
  terms w' !! printHash id' = terms w !! printHash id' →
  normaliseFState (S fuel) id w' = (w', Throw (OutputObstructed path)).
Proof.
  intros Hs Ht H1 Hstill.
  assert (Hsucc : dbSuccessors w' = dbSuccessors w).
  { rewrite (normaliseFState_no_inputs _ _ _ _ _ _ _ _ Hs Ht) in H1.
    case_bool_decide; [done|].
    destruct (buildEnvironment bnds ∅) as [env| |]; [|done..].
    destruct (parseOutPaths _ []) as [outPaths| |]; [|done..].
    pose proof (buildOutputs_keepsIndex builder env outPaths
                  (elements (∅ : gset string)) w) as Hk.
    by rewrite H1 in Hk. }
  assert (Hs' : followSuccessors fuel id w' = (w', Done id')).
  { pose proof (followSuccessors_world fuel id w') as Hw.
    pose proof (followSuccessors_reads_index fuel id w' w Hsucc) as Hr.
    rewrite Hs in Hr. simpl in Hr.
    destruct (followSuccessors fuel id w') as [w0 r]. simpl in *. by subst. }
  assert (Ht' : terms w' !! printHash id' =
                Some (Some (DeriveTerm (ATuple [AStr path; AStr sid] :: outs) []
                              builder platform bnds))) by by rewrite Hstill.
  rewrite (normaliseFState_no_inputs _ _ _ _ _ _ _ _ Hs Ht) in H1.
  rewrite (normaliseFState_no_inputs _ _ _ _ _ _ _ _ Hs' Ht').
  case_bool_decide; [done|].
  destruct (buildEnvironment bnds ∅) as [env| |]; [|done..].
  destruct (parseOutPaths _ []) as [outPaths| |] eqn:Houts; [|done..].
  assert (∃ h rest, outPaths = (path, h) :: rest) as (h & rest & ->).
  { simpl in Houts. destruct (parseHash sid) as [h|]; [|done].
    destruct (parseOutPaths_prefix _ _ _ Houts) as [r ->]. by exists h, r. }
  assert (He : pathExists path w' = true).
  { unfold buildOutputs, bind in H1.
    destruct (checkOutputs _ w) as [w1 [[]| |]]; [|done..].
    destruct (runProgram builder env w1) as [w2 [[]| |]]; [|done..].
    apply registerOutputs_done in H1.
    by apply Forall_cons in H1 as [H1 _]. }
  unfold buildOutputs.
  apply bind_throw.
  by apply (checkOutputs_first [] rest path h w').
Qed.

(** ** More on [realiseSlice] *)

(** X20. A slice that is installed is left alone: when every element of
    a non-empty slice is registered under its own id, [realiseSlice]
    returns without a call of [expandId] and changes nothing. *)
Theorem realiseSlice_installed_noop s w :
  elems s ≠ [] →
  Forall (installed w) (elems s) →
  realiseSlice s w = (w, Done tt).
Proof.
  intros Hne Hall. rewrite realiseSlice_nonempty by done.
  by rewrite (bind_done _ _ _ _ _ (checkInstalled_all _ _ Hall)).
Qed.

(** X21. What a successful [realiseSlice] leaves: every element of the
    slice is registered under its own id (given that [expandId]
    registers what it installs, that the printed ids of the slice parse
    back, and that no path is listed with two ids). *)
Theorem realiseSlice_installs s w w1 :
  expandIdRegisters →
  (∀ e, e ∈ elems s → parseHash (printHash (elemId e)) = Some (elemId e)) →
  pathsFunctional s →
  realiseSlice s w = (w1, Done tt) →
  Forall (installed w1) (elems s).
Proof.
  intros Hreg Hrt Hfun Hr.
  assert (Hne : elems s ≠ []).
  { intros Hnil. unfold realiseSlice in Hr. by rewrite Hnil in Hr. }
  rewrite realiseSlice_nonempty in Hr by done. unfold bind in Hr.
  pose proof (checkInstalled_world (elems s) w) as Hw.
  pose proof (checkInstalled_false (elems s) w) as Hf.
  destruct (checkInstalled (elems s) w) as [w0 [[|]| |]]; simpl in *;
    subst w0; [| |done..].
  - apply Forall_forall. intros e He. exists (printHash (elemId e)).
    split; [|by apply Hrt].
    rewrite (expandElems_db _ _ _ Hreg Hr).
    by apply foldl_insert_functional.
  - injection Hr as <-. by apply Hf.
Qed.

(** X22. The expansion loop of [realiseSlice] stops at the first element
    that [expandId] refuses: the loop ends with the error of [expandId]
    in the world that call left.  What was expanded before stays
    expanded, and the elements after it are not touched. *)
Theorem expandElems_stops_at_failure (pre post : list SliceElem) e err w w1 w2 :
  expandElems pre w = (w1, Done tt) →
  expandId (elemId e) (elemPath e)
    (logEvent (EvExpandId (elemId e) (elemPath e)) w1) = (w2, Throw err) →
  expandElems (pre ++ e :: post) w = (w2, Throw err).
Proof.
  revert w. induction pre as [|x pre IH]; intros w Hpre Hex.
  - injection Hpre as <-. simpl. unfold bind, modify. simpl. by rewrite Hex.
  - simpl in *. unfold bind at 1 in Hpre. unfold bind at 1.
    unfold modify at 1 in Hpre. unfold modify at 1.
    unfold bind at 1 in Hpre. unfold bind at 1.
    destruct (expandId (elemId x) (elemPath x) _) as [w0 [[]| |]]; [|done..].
    by apply IH.
Qed.

(** ** A derivation among the inputs *)

(** X23. A derivation whose first input is a derivation that still has
    to be built cannot be normalised: the input is built (its builder
    runs, its outputs are registered, the world [w1] is what that
    leaves), and then [realiseSlice] refuses the slice of the input,
    which has no elements.  The call ends with "empty slice". *)
Theorem derivation_input_never_realised fuel id id' i i' w w1
    outs si ins builder bnds inIds t slice :
  followSuccessors (S fuel) id w = (w, Done id') →
  terms w !! printHash id' =
    Some (Some (DeriveTerm outs (AStr si :: ins) builder thisSystem bnds)) →
  parseIds (AStr si :: ins) [] = Done (i :: inIds) →
  followSuccessors fuel i w = (w, Done i') →
  terms w !! printHash i' = Some (Some t) →
  isSliceAppl t = false →
  normaliseFState (S fuel) i w = (w1, Done slice) →
  normaliseFState (S (S fuel)) id w = (w1, Throw EmptySlice).
Proof.
  intros Hs Ht Hids Hsi Hti Hnot Hin.
  assert (Hempty : realiseSlice slice w1 = (w1, Throw EmptySlice)).
  { rewrite (normaliseFState_load _ _ _ _ _ Hsi Hti), Hnot in Hin.
    by eapply derive_result_not_realisable. }
  rewrite (normaliseFState_derive _ _ _ _ _ _ _ _ _ Hs Ht).
  unfold checkPlatform. rewrite bool_decide_false by (intros Hne; by apply Hne).
  unfold bind at 1. unfold ret at 1. unfold bind at 1. unfold lift at 1.
  rewrite Hids. apply bind_throw.
  simpl realiseInputs. rewrite (bind_done _ _ _ _ _ Hin).
  by apply bind_throw.
Qed.

(** ** Outputs that exist, outputs that are missing *)

(** The registration loop over a run of outputs that exist. *)
Lemma registerOutputs_prefix (xs ys : list (string * Hash)) inPaths slice w :
  Forall (λ o, pathExists o.1 w = true) xs →
  registerOutputs (xs ++ ys) inPaths slice w =
    registerOutputs ys inPaths
      (mkSlice (roots slice ++ xs.*2) (elems slice)) (registerAll xs w).
Proof.
  revert slice w. induction xs as [|[p i] rest IH]; intros slice w Hall.
  - simpl. rewrite app_nil_r. by destruct slice.
  - inversion Hall as [|? ? Hp Hrest]; subst. simpl in Hp.
    simpl. unfold bind at 1. unfold gets at 1. rewrite Hp. simpl.
    unfold bind at 1. unfold registerPath at 1.
    unfold bind at 1. unfold gets at 1.
    rewrite IH.
    + simpl. by rewrite <- app_assoc.
    + eapply Forall_impl; [exact Hrest|]. intros o Ho. exact Ho.
Qed.

Lemma registerAll_unchanged (outPaths : list (string * Hash)) path w :
  path ∉ outPaths.*1 →
  dbPath2Id (registerAll outPaths w) !! path = dbPath2Id w !! path.
Proof.
  intros Hnot.
  destruct (decide (dbPath2Id (registerAll outPaths w) !! path
                    = dbPath2Id w !! path)) as [|Hne]; [done|].
  by apply registerAll_changed in Hne.
Qed.

(** C10, as amended.  In the derive branch, once [runProgram] has
    returned: a declared output [(path, id)] that exists, and before
    which only outputs that exist are declared, is registered under its
    declared id, whatever content lies at the path.  [registerPath] is
    called for it and for the outputs before it, in order, and for the
    outputs [later] that follow.  Unless the path is declared again among
    these, [dbPath2Id] then holds the declared id for it.  Either every
    output that follows exists too, and the slice is returned with the
    declared ids as its roots; or the loop throws BuildIncomplete at the
    first output that is missing, and the outputs declared after that
    one are not registered. *)
Theorem existing_output_registered_under_declared_id builder env
    (pre post : list (string * Hash)) path id inPaths w w2 :
  (checkOutputs (pre ++ (path, id) :: post) ;;; runProgram builder env) w
    = (w2, Done tt) →
  Forall (λ o, pathExists o.1 w2 = true) pre →
  pathExists path w2 = true →
  ∃ w' r later,
    buildOutputs builder env (pre ++ (path, id) :: post) inPaths w = (w', r) ∧
    fs w' = fs w2 ∧
    trace w' = trace w2
               ++ ((λ o, EvRegisterPath o.1 o.2) <$> (pre ++ (path, id) :: later)) ∧
    (path ∉ later.*1 → dbPath2Id w' !! path = Some (printHash id)) ∧
    ((later = post ∧ r = Done (mkSlice (pre ++ (path, id) :: post).*2 [])) ∨
     (∃ p i rest,
        post = later ++ (p, i) :: rest ∧
        pathExists p w2 = false ∧
        r = Throw (BuildIncomplete p))).
Proof.
  intros Hrun Hpre Hpath.
  rewrite (buildOutputs_after_run _ _ _ inPaths _ _ Hrun).
  assert (Hhead : Forall (λ o, pathExists o.1 w2 = true) (pre ++ [(path, id)])).
  { apply Forall_app. split; [done|]. by constructor. }
  replace (pre ++ (path, id) :: post) with ((pre ++ [(path, id)]) ++ post)
    by by rewrite <- app_assoc.
  rewrite registerOutputs_prefix by done.
  set (w3 := registerAll (pre ++ [(path, id)]) w2).
  assert (Hdb3 : dbPath2Id w3 !! path = Some (printHash id)).
  { unfold w3. rewrite registerAll_app. simpl. apply lookup_insert_eq. }
  assert (Hex3 : ∀ p, pathExists p w3 = pathExists p w2).
  { intros p. unfold w3. apply registerAll_pathExists. }
  assert (Hshape : ∀ later : list (string * Hash),
    fs (registerAll later w3) = fs w2 ∧
    trace (registerAll later w3) = trace w2
      ++ ((λ o, EvRegisterPath o.1 o.2) <$> (pre ++ (path, id) :: later)) ∧
    (path ∉ later.*1 →
     dbPath2Id (registerAll later w3) !! path = Some (printHash id))).
  { intros later. split; [|split].
    - unfold w3. by rewrite !registerAll_fs.
    - unfold w3. rewrite !registerAll_trace.
      rewrite <- app_assoc, <- fmap_app. by rewrite <- app_assoc.
    - intros Hnot. by rewrite registerAll_unchanged. }
  destruct (first_missing post w3)
    as [Hall|(reg & p0 & i0 & rest & -> & Hreg & Hm)].
  - exists (registerAll post w3),
      (Done (mkSlice ((pre ++ [(path, id)]) ++ post).*2 [])), post.
    split.
    { rewrite registerOutputs_all by done. simpl.
      by rewrite (fmap_app snd (pre ++ [(path, id)]) post). }
    destruct (Hshape post) as (? & ? & ?). repeat split; try done.
    left. by rewrite <- app_assoc.
  - exists (registerAll reg w3), (Throw (BuildIncomplete p0)), reg.
    split; [by rewrite registerOutputs_missing|].
    destruct (Hshape reg) as (? & ? & ?). repeat split; try done.
    right. exists p0, i0, rest. by rewrite <- Hex3.
Qed.

(** ** Realising twice, for any slice *)




End Further.

(** * The scenarios of the spec, run on the small system *)

Import Toy.

Lemma toy_expandId_registers : expandIdRegisters.
Proof.
  intros id target w w'. simpl. unfold expandIdSpec.
  destruct (contentPresent id w); [|done]. by intros [= <-].
Qed.

(** ** The simple derivation (scenario 3) *)

(** C1, on the code.  The derivation
    [Derive([("/s/out", hout)], [], "/bin/touch-out", host, [("OUT", "/s/out")])],
    whose builder creates [/s/out] with content [hout]: with any bound
    of two or more [normaliseFState] returns a slice with the roots
    [[hout]] and registers [/s/out] under [hout], but the slice has no
    elements. *)
Theorem simple_derive_slice_has_no_elems :
  ∀ fuel, ∃ w',
    normaliseFState (2 + fuel) "iderive"
      (worldWith builders (simpleDerive "/bin/touch-out" "i686-linux"))
    = (w', Done (mkSlice ["hout"] [])) ∧
    fs w' !! "/s/out" = Some (Blob "hout") ∧
    dbPath2Id w' !! "/s/out" = Some "hout".
Proof.
  intros fuel.
  exists (normaliseFState (hashOps := toyHash) 2 "iderive"
            (worldWith builders (simpleDerive "/bin/touch-out" "i686-linux"))).1.
  split; [|split; vm_compute; reflexivity].
  apply (normaliseFState_fuel (hashOps := toyHash) (system := toySystem) 2);
    [lia| |done].
  vm_compute. reflexivity.
Qed.

(** ** Successors *)

(** C2, witness: two ids that are each other's successor. *)
Lemma successor_cycle_diverges_toy :
  normaliseFState 1000 "ia" cyclicSuccessors = (cyclicSuccessors, Diverge).
Proof.
  apply (successor_cycle_diverges (hashOps := toyHash) (system := toySystem)
           cyclicSuccessors "ia").
  apply tc_l with "ib".
  - exists "ib". split; reflexivity.
  - apply tc_once. exists "ia". split; reflexivity.
Defined.

(** C8, counterexample: the term stored under ["iderive"] is a derivation
    that builds, but the successor index sends ["iderive"] to an id with
    no stored term.  The call does not fall back on ["iderive"]: it
    fails.  Without the entry in the index the same call returns. *)
Lemma dangling_successor_is_fatal :
  normaliseFState 3 "iderive" danglingSuccessor
    = (danglingSuccessor, Throw (StoreError "cannot expand id")) ∧
  (normaliseFState 3 "iderive"
     (worldWith builders (simpleDerive "/bin/touch-out" "i686-linux"))).2
    = Done (mkSlice ["hout"] []).
Proof. split; vm_compute; reflexivity. Qed.

(** C8, witness. *)
Lemma normalise_broken_successor_toy :
  ∃ what, normaliseFState 3 "iderive" danglingSuccessor
            = (danglingSuccessor, Throw (StoreError what)).
Proof.
  apply (normalise_broken_successor (hashOps := toyHash) (system := toySystem) 2 "iderive" "igone" danglingSuccessor).
  - reflexivity.
  - left. reflexivity.
Defined.

(** ** Platform and outputs *)

(** C5, witness: scenario 4, the platform ["other"]. *)
Lemma normalise_platform_mismatch_toy :
  normaliseFState 2 "iderive"
    (worldWith builders (simpleDerive "/bin/touch-out" "other"))
  = (worldWith builders (simpleDerive "/bin/touch-out" "other"),
     Throw (PlatformMismatch "other" "i686-linux")).
Proof.
  apply (normalise_platform_mismatch (hashOps := toyHash) (system := toySystem) 1 "iderive" "iderive"
           (worldWith builders (simpleDerive "/bin/touch-out" "other"))
           [ATuple [AStr "/s/out"; AStr "hout"]] [] "/bin/touch-out" "other"
           [ATuple [AStr "OUT"; AStr "/s/out"]]).
  - reflexivity.
  - reflexivity.
  - discriminate.
Defined.

(** C5, counterexample: the term stored under ["iderive"] is a
    derivation for another platform, and ["iderive"] has a successor.
    The call follows the successor and returns its slice; the
    derivation is not loaded and its platform is not checked. *)
Lemma foreign_derive_with_successor :
  terms shadowedDerive !! "iderive"
    = Some (Some (simpleDerive "/bin/touch-out" "other")) ∧
  "other" ≠ thisSystem ∧
  dbSuccessors shadowedDerive !! "iderive" = Some "islice" ∧
  normaliseFState 3 "iderive" shadowedDerive = (shadowedDerive, Done sliceAB).
Proof.
  split; [vm_compute; reflexivity|]. split; [done|].
  split; vm_compute; reflexivity.
Qed.

(** C3, counterexample: [/s/out] exists before normalisation and the
    derivation asks for another platform.  The call raises
    PlatformMismatch, not OutputObstructed. *)
Lemma existing_output_wrong_platform :
  pathExists "/s/out" (worldWith squatted (simpleDerive "/bin/touch-out" "other"))
    = true ∧
  normaliseFState 2 "iderive"
    (worldWith squatted (simpleDerive "/bin/touch-out" "other"))
  = (worldWith squatted (simpleDerive "/bin/touch-out" "other"),
     Throw (PlatformMismatch "other" "i686-linux")) ∧
  (normaliseFState 2 "iderive"
     (worldWith squatted (simpleDerive "/bin/touch-out" "other"))).2
  ≠ Throw (OutputObstructed "/s/out").
Proof. split; [|split]; vm_compute; [reflexivity..|discriminate]. Qed.

(** C3, witness: scenario 5, [/s/out] exists and the platform is the
    host's. *)
Lemma normalise_output_obstructed_toy :
  ∃ path0,
    path0 ∈ [("/s/out", "hout")].*1 ∧
    pathExists path0
      (worldWith squatted (simpleDerive "/bin/touch-out" "i686-linux")) = true ∧
    normaliseFState 2 "iderive"
      (worldWith squatted (simpleDerive "/bin/touch-out" "i686-linux"))
    = (worldWith squatted (simpleDerive "/bin/touch-out" "i686-linux"),
       Throw (OutputObstructed path0)).
Proof.
  apply (normalise_output_obstructed (hashOps := toyHash) (system := toySystem) 1 "iderive" "iderive"
           (worldWith squatted (simpleDerive "/bin/touch-out" "i686-linux"))
           (worldWith squatted (simpleDerive "/bin/touch-out" "i686-linux"))
           [ATuple [AStr "/s/out"; AStr "hout"]] [] "/bin/touch-out"
           [ATuple [AStr "OUT"; AStr "/s/out"]]
           [] ([], ∅) {[ "OUT" := "/s/out" ]} [("/s/out", "hout")] "/s/out").
  - reflexivity.
  - reflexivity.
  - reflexivity.
  - reflexivity.
  - reflexivity.
  - reflexivity.
  - simpl. left.
  - vm_compute. reflexivity.
Defined.

(** ** After the build *)

(** C4, witness: the builder makes [/s/out] and not [/s/doc]. *)
Lemma outputs_registered_only_if_exist_toy :
  ∃ registered w' r,
    buildOutputs "/bin/touch-out" ∅ twoOutputs [] (storeWorld builders ∅)
      = (w', r) ∧
    fs w' = fs (built "/bin/touch-out" twoOutputs) ∧
    trace w' = trace (built "/bin/touch-out" twoOutputs)
               ++ ((λ o, EvRegisterPath o.1 o.2) <$> registered) ∧
    Forall (λ o, pathExists o.1 w' = true) registered ∧
    (∀ path, dbPath2Id w' !! path
               ≠ dbPath2Id (built "/bin/touch-out" twoOutputs) !! path →
             pathExists path w' = true) ∧
    ((registered = twoOutputs ∧ r = Done (mkSlice twoOutputs.*2 [])) ∨
     (∃ path id post,
        twoOutputs = registered ++ (path, id) :: post ∧
        pathExists path (built "/bin/touch-out" twoOutputs) = false ∧
        r = Throw (BuildIncomplete path))).
Proof.
  apply (outputs_registered_only_if_exist (hashOps := toyHash)
           (system := toySystem) "/bin/touch-out" ∅ twoOutputs []
           (storeWorld builders ∅) (built "/bin/touch-out" twoOutputs)).
  vm_compute. reflexivity.
Defined.

(** The same run, in full: [/s/out] is registered, BuildIncomplete is
    raised for [/s/doc], which never enters the database. *)
Example build_incomplete_run :
  ∃ w',
    buildOutputs "/bin/touch-out" ∅ twoOutputs [] (storeWorld builders ∅)
      = (w', Throw (BuildIncomplete "/s/doc")) ∧
    dbPath2Id w' = {[ "/s/out" := "hout" ]}.
Proof. eexists. split; vm_compute; reflexivity. Qed.

(** The builder leaves content [hother] at [/s/out], the derivation
    declares [hout]. *)
Lemma outputs_registered_under_declared_id_toy :
  fs (built "/bin/touch-other" [("/s/out", "hout")]) !! "/s/out"
    = Some (Blob "hother") ∧
  ∃ w',
    buildOutputs "/bin/touch-other" ∅ [("/s/out", "hout")] []
      (storeWorld builders ∅)
      = (w', Done (mkSlice [("/s/out", "hout")].*2 [])) ∧
    fs w' = fs (built "/bin/touch-other" [("/s/out", "hout")]) ∧
    trace w' = trace (built "/bin/touch-other" [("/s/out", "hout")])
               ++ ((λ o, EvRegisterPath o.1 o.2) <$> [("/s/out", "hout")]) ∧
    (NoDup [("/s/out", "hout")].*1 →
     ∀ path id, (path, id) ∈ [("/s/out", "hout")] →
                dbPath2Id w' !! path = Some (printHash id)).
Proof.
  split; [vm_compute; reflexivity|].
  apply (outputs_registered_under_declared_id (hashOps := toyHash)
           (system := toySystem) "/bin/touch-other" ∅ [("/s/out", "hout")] []
           (storeWorld builders ∅)
           (built "/bin/touch-other" [("/s/out", "hout")])).
  - vm_compute. reflexivity.
  - constructor; [vm_compute; reflexivity|constructor].
Defined.

(** The whole call on that derivation: the slice and the database name
    [hout], the filesystem holds [hother]. *)
Example mismatched_output_run :
  ∃ w',
    normaliseFState 2 "iderive"
      (worldWith builders (simpleDerive "/bin/touch-other" "i686-linux"))
    = (w', Done (mkSlice ["hout"] [])) ∧
    fs w' !! "/s/out" = Some (Blob "hother") ∧
    dbPath2Id w' !! "/s/out" = Some "hout".
Proof.
  eexists. split; [vm_compute; reflexivity|]. split; vm_compute; reflexivity.
Qed.

(** ** The working directory *)

(** The builder writes below its working directory; when [runProgram]
    returns, the directory and what was written are gone.  A builder that
    fails leaves nothing either. *)
Example tmpDir_removed_run :
  (child "/bin/touch-out" ∅ "/tmp/nix-4242-0"
     (<["/tmp/nix-4242-0" := Dir]> builders)).1 !! "/tmp/nix-4242-0/scratch"
    = Some Dir ∧
  runProgram "/bin/touch-out" ∅ (storeWorld builders ∅)
    = (mkWorld (<["/s/out" := Blob "hout"]> builders) ∅ ∅ ∅ 1%Z
         [EvRunProgram "/bin/touch-out" ∅], Done tt) ∧
  runProgram "/bin/false" ∅ (storeWorld builders ∅)
    = (mkWorld builders ∅ ∅ ∅ 1%Z [EvRunProgram "/bin/false" ∅],
       Throw (BuildError "unable to build package")).
Proof. split; [|split]; vm_compute; reflexivity. Qed.

(** ** The realiser *)

(** C6, counterexample.  In the first two worlds the first element,
    [/s/a], is missing, and the second element's path [/s/b] was created
    out of band with other content, or is registered under another id:
    [realiseSlice] leaves its check at [/s/a], raises no PathObstructed
    and returns.  In the third world both paths are registered under
    their ids and the content at [/s/a] was replaced out of band: the
    slice counts as installed. *)
Lemma obstruction_after_missing_not_raised :
  pathExists "/s/b" (storeWorld (<["/s/b" := Blob "hx"]> cache) ∅) = true ∧
  dbPath2Id (storeWorld (<["/s/b" := Blob "hx"]> cache) ∅) !! "/s/b" = None ∧
  (realiseSlice sliceAB (storeWorld (<["/s/b" := Blob "hx"]> cache) ∅)).2
    = Done tt ∧
  dbPath2Id (storeWorld cache {[ "/s/b" := "hx" ]}) !! "/s/b" = Some "hx" ∧
  (realiseSlice sliceAB (storeWorld cache {[ "/s/b" := "hx" ]})).2 = Done tt ∧
  fs tampered !! "/s/a" = Some (Blob "hx") ∧
  realiseSlice sliceAB tampered = (tampered, Done tt).
Proof. repeat split; vm_compute; reflexivity. Qed.

(** C6, witness: [/s/a] is installed and [/s/b] is registered under
    another id. *)
Lemma realiseSlice_obstructed_toy :
  realiseSlice sliceAB wrongId = (wrongId, Throw (PathObstructed "/s/b")).
Proof.
  apply (realiseSlice_obstructed (hashOps := toyHash) (system := toySystem)
           [elemA] [] elemB sliceAB wrongId).
  - reflexivity.
  - constructor; [|constructor]. exists "ha". split; reflexivity.
  - left. exists "hx", "hx". repeat split; [reflexivity..|discriminate].
Defined.

(** The other obstruction: [/s/a] exists and is not registered. *)
Example realiseSlice_squatted_run :
  realiseSlice sliceAB (storeWorld (<["/s/a" := Blob "hx"]> cache) ∅)
  = (storeWorld (<["/s/a" := Blob "hx"]> cache) ∅,
     Throw (PathObstructed "/s/a")).
Proof. vm_compute. reflexivity. Qed.

(** With the [expandId] that writes over a target in use, a slice that
    lists [/s/a] with two ids is realised once without error, and the
    second call raises PathObstructed. *)
Example realiseSlice_twice_obstructed :
  (realiseSlice sliceTwice (storeWorld cache ∅)).2 = Done tt ∧
  (realiseSlice sliceTwice
     (realiseSlice sliceTwice (storeWorld cache ∅)).1).2
    = Throw (PathObstructed "/s/a").
Proof. split; vm_compute; reflexivity. Qed.

(** Scenario 1, a slice of two paths, realised twice. *)
Lemma realiseSlice_idempotent_toy :
  realiseSlice sliceAB (realiseSlice sliceAB (storeWorld cache ∅)).1
    = ((realiseSlice sliceAB (storeWorld cache ∅)).1, Done tt) ∧
  (realiseSlice sliceAB ;;; realiseSlice sliceAB) (storeWorld cache ∅)
    = realiseSlice sliceAB (storeWorld cache ∅).
Proof.
  apply (realiseSlice_idempotent (hashOps := toyHash) (system := toySystem)
           sliceAB (storeWorld cache ∅)
           (realiseSlice sliceAB (storeWorld cache ∅)).1).
  - exact toy_expandId_registers.
  - intros e He. simpl in He.
    apply elem_of_cons in He as [->|He]; [reflexivity|].
    apply elem_of_cons in He as [->|He]; [reflexivity|].
    by apply elem_of_nil in He.
  - intros e1 e2 H1 H2. simpl in H1, H2.
    apply elem_of_cons in H1 as [->|H1];
      [|apply elem_of_cons in H1 as [->|H1]; [|by apply elem_of_nil in H1]];
      (apply elem_of_cons in H2 as [->|H2];
        [|apply elem_of_cons in H2 as [->|H2]; [|by apply elem_of_nil in H2]]);
      simpl; first [reflexivity | discriminate].
  - vm_compute. reflexivity.
Defined.

(** The second call in full: the world is the one the first call left,
    the trace holds the two expansions of the first call and no more. *)
Example realiseSlice_second_call_run :
  trace (realiseSlice sliceAB (storeWorld cache ∅)).1
    = [EvExpandId "ha" "/s/a"; EvExpandId "hb" "/s/b"] ∧
  trace (realiseSlice sliceAB (realiseSlice sliceAB (storeWorld cache ∅)).1).1
    = [EvExpandId "ha" "/s/a"; EvExpandId "hb" "/s/b"].
Proof. split; vm_compute; reflexivity. Qed.

(** * Further properties, run on the small system *)

Lemma toy_expandId_keepsIndex h target : keepsIndex (expandId h target).
Proof.
  intros w. simpl. unfold expandIdSpec. by destruct (contentPresent h w).
Qed.

(** X1, witness. *)
Lemma parseIds_appends_in_order_toy :
  ∃ hs : list Hash,
    ["h0"; "ha"; "hb"] = ["h0"] ++ hs ∧
    Forall2 parsesAs [AStr "ha"; AStr "hb"] hs.
Proof.
  apply (parseIds_appends_in_order (hashOps := toyHash)
           [AStr "ha"; AStr "hb"] ["h0"] ["h0"; "ha"; "hb"]).
  reflexivity.
Defined.

(** X2, witness: a number, then the empty string, after one id. *)
Lemma parseIds_first_bad_toy :
  (matchStr (AInt 7) = None →
   parseIds ([AStr "ha"] ++ AInt 7 :: [AStr "hb"]) []
   = Throw (BadTerm "not an id" (AInt 7))) ∧
  (∀ s, matchStr (AInt 7) = Some s → parseHash s = None →
        parseIds ([AStr "ha"] ++ AInt 7 :: [AStr "hb"]) [] = Throw (BadHash s)).
Proof.
  apply (parseIds_first_bad (hashOps := toyHash)
           [AStr "ha"] [AStr "hb"] (AInt 7) ["ha"] []).
  constructor; [|constructor]. exists "ha". split; reflexivity.
Defined.

(** X3, witness. *)
Lemma parseSlice_sliceTerm_toy : parseSlice (sliceTerm sliceAB) = Done sliceAB.
Proof.
  apply (parseSlice_sliceTerm (hashOps := toyHash) sliceAB).
  repeat constructor.
Defined.

Lemma chain_ia_islice : rtc (succEdge chainWorld) "ia" "islice".
Proof.
  apply rtc_l with "ib"; [exists "ib"; split; reflexivity|].
  apply rtc_l with "islice"; [exists "islice"; split; reflexivity|].
  apply rtc_refl.
Qed.

(** X4, witness. *)
Lemma followSuccessors_ends_toy :
  ∃ n, ∀ fuel, (n ≤ fuel)%nat →
       followSuccessors fuel "ia" chainWorld = (chainWorld, Done "islice").
Proof.
  apply (followSuccessors_ends (hashOps := toyHash) "ia" "islice" chainWorld).
  - exact chain_ia_islice.
  - reflexivity.
Defined.

(** X5, witness: the slice is reached from ["ia"], under which no term is
    stored. *)
Lemma normalise_follows_successors_to_slice_toy :
  ∃ n, ∀ fuel, (n ≤ fuel)%nat →
       normaliseFState fuel "ia" chainWorld
       = (chainWorld, parseSlice (sliceTerm sliceAB)).
Proof.
  apply (normalise_follows_successors_to_slice (hashOps := toyHash)
           (system := toySystem) "ia" "islice" (sliceTerm sliceAB) chainWorld).
  - exact chain_ia_islice.
  - reflexivity.
  - reflexivity.
  - reflexivity.
Defined.

(** X6, witness. *)
Lemma normalise_malformed_successor_toy :
  ∃ n, ∀ fuel, (n ≤ fuel)%nat →
       normaliseFState fuel "ia" malformedSuccessor
       = (malformedSuccessor, Throw (BadHash "")).
Proof.
  apply (normalise_malformed_successor (hashOps := toyHash)
           (system := toySystem) "ia" "ib" "" malformedSuccessor).
  - apply rtc_l with "ib"; [exists "ib"; split; reflexivity|]. apply rtc_refl.
  - reflexivity.
  - reflexivity.
Defined.

(** X7, witness: two edges. *)
Lemma normalise_along_successors_toy :
  normaliseFState (S (2 + 1)) "ia" chainWorld = (chainWorld, Done sliceAB).
Proof.
  apply (normalise_along_successors (hashOps := toyHash) (system := toySystem)
           2 1 "ia" "islice" chainWorld chainWorld (Done sliceAB)).
  - apply nsteps_l with "ib"; [exists "ib"; split; reflexivity|].
    apply nsteps_l with "islice"; [exists "islice"; split; reflexivity|].
    apply nsteps_O.
  - vm_compute. reflexivity.
  - discriminate.
Defined.

(** X8, witness: ["ialias"] is given the simple derivation as its
    successor. *)
Lemma registerSuccessor_redirects_toy :
  normaliseFState 3 "ialias"
    (registerSuccessor "ialias" "iderive"
       (worldWith builders (simpleDerive "/bin/touch-out" "i686-linux"))).1
  = ((normaliseFState 2 "iderive"
        (registerSuccessor "ialias" "iderive"
           (worldWith builders (simpleDerive "/bin/touch-out" "i686-linux"))).1).1,
     Done (mkSlice ["hout"] [])).
Proof.
  apply (registerSuccessor_redirects (hashOps := toyHash) (system := toySystem)
           1 "ialias" "iderive"
           (worldWith builders (simpleDerive "/bin/touch-out" "i686-linux"))).
  - reflexivity.
  - vm_compute. reflexivity.
  - discriminate.
Defined.

(** X9, witness. *)
Lemma registerSuccessor_self_diverges_toy :
  normaliseFState 500 "iderive"
    (registerSuccessor "iderive" "iderive"
       (worldWith builders (simpleDerive "/bin/touch-out" "i686-linux"))).1
  = ((registerSuccessor "iderive" "iderive"
        (worldWith builders (simpleDerive "/bin/touch-out" "i686-linux"))).1,
     Diverge).
Proof.
  apply (registerSuccessor_self_diverges (hashOps := toyHash)
           (system := toySystem) "iderive"
           (worldWith builders (simpleDerive "/bin/touch-out" "i686-linux"))).
  reflexivity.
Defined.

(** X10, witness. *)
Lemma normalise_include_not_a_derive_toy :
  normaliseFState 2 "iinc" oddTerms
  = (oddTerms, Throw (BadTerm "not a derive" (hash2fstate "iderive"))).
Proof.
  apply (normalise_include_not_a_derive (hashOps := toyHash)
           (system := toySystem) 1 "iinc" "iinc" "iderive" oddTerms).
  - reflexivity.
  - reflexivity.
Defined.

(** X11, witness: the string constant ["Slice"]. *)
Lemma normalise_malformed_slice_toy :
  normaliseFState 2 "istr" oddTerms
  = (oddTerms, Throw (BadTerm "not a slice" (AStr "Slice"))).
Proof.
  apply (normalise_malformed_slice (hashOps := toyHash) (system := toySystem)
           1 "istr" "istr" (AStr "Slice") oddTerms).
  - reflexivity.
  - reflexivity.
  - reflexivity.
  - reflexivity.
Defined.

(** X12, witness: [OUT] is bound twice. *)
Lemma buildEnvironment_last_wins_toy :
  (∀ k, (∀ t v, t ∈ twoBindings → matchPair t ≠ Some (k, v)) →
        ({[ "OUT" := "/s/out"; "HOME" := "/" ]} : gmap string string) !! k
        = (∅ : gmap string string) !! k) ∧
  (∀ pre t k v post,
     twoBindings = pre ++ t :: post → matchPair t = Some (k, v) →
     (∀ t' v', t' ∈ post → matchPair t' ≠ Some (k, v')) →
     ({[ "OUT" := "/s/out"; "HOME" := "/" ]} : gmap string string) !! k
     = Some v).
Proof.
  apply (buildEnvironment_last_wins twoBindings ∅
           {[ "OUT" := "/s/out"; "HOME" := "/" ]}).
  vm_compute. reflexivity.
Defined.

(** X13, witness: a binding whose value is a number. *)
Lemma buildEnvironment_first_bad_toy :
  buildEnvironment
    ([ATuple [AStr "OUT"; AStr "/s/out"]]
     ++ ATuple [AStr "N"; AInt 1] :: [ATuple [AStr "HOME"; AStr "/"]]) ∅
  = Throw (BadTerm "tuple of strings expected" (ATuple [AStr "N"; AInt 1])).
Proof.
  apply (buildEnvironment_first_bad [ATuple [AStr "OUT"; AStr "/s/out"]]
           [ATuple [AStr "HOME"; AStr "/"]] (ATuple [AStr "N"; AInt 1]) ∅).
  - constructor; [by eexists|constructor].
  - reflexivity.
Defined.

(** X15, witness: the builder that makes [/s/out]. *)
Lemma runProgram_returns_only_on_exit_0_toy :
  pathExists (tmpDirName (counter (storeWorld builders ∅)))
    (storeWorld builders ∅) = false ∧
  is_Some (<[tmpDirName (counter (storeWorld builders ∅)) := Dir]>
             (fs (storeWorld builders ∅)) !! "/bin/touch-out") ∧
  ∃ files',
    execle "/bin/touch-out" (envStrings ∅)
      (tmpDirName (counter (storeWorld builders ∅)))
      (<[tmpDirName (counter (storeWorld builders ∅)) := Dir]>
         (fs (storeWorld builders ∅)))
    = Some (files', Exited 0) ∧
    fs (runProgram "/bin/touch-out" ∅ (storeWorld builders ∅)).1
    = filter (λ kv, isUnder (tmpDirName (counter (storeWorld builders ∅))) kv.1
                    = false) files'.
Proof.
  apply (runProgram_returns_only_on_exit_0 (hashOps := toyHash)
           (system := toySystem) "/bin/touch-out" ∅ (storeWorld builders ∅)
           (runProgram "/bin/touch-out" ∅ (storeWorld builders ∅)).1).
  vm_compute. reflexivity.
Defined.

(** X16, witness: the same builder, run twice. *)
Lemma consecutive_builds_use_different_dirs_toy :
  ∃ dir1 dir2 files1 files1' files2 files2',
    execle "/bin/lazy" (envStrings ∅) dir1 files1 = Some (files1', Exited 0) ∧
    execle "/bin/lazy" (envStrings ∅) dir2 files2 = Some (files2', Exited 0) ∧
    dir1 = tmpDirName (counter (storeWorld builders ∅)) ∧
    dir2 = tmpDirName
             (counter (runProgram "/bin/lazy" ∅ (storeWorld builders ∅)).1) ∧
    dir1 ≠ dir2.
Proof.
  apply (consecutive_builds_use_different_dirs (hashOps := toyHash)
           (system := toySystem) "/bin/lazy" ∅ "/bin/lazy" ∅
           (storeWorld builders ∅)
           (runProgram "/bin/lazy" ∅ (storeWorld builders ∅)).1
           (runProgram "/bin/lazy" ∅
              (runProgram "/bin/lazy" ∅ (storeWorld builders ∅)).1).1).
  - vm_compute. reflexivity.
  - vm_compute. reflexivity.
Defined.

(** The counter at its largest value: the next directory is named after
    the smallest. *)
Example counter_wraps :
  counter (runProgram "/bin/lazy" ∅
             (mkWorld builders ∅ ∅ ∅ 2147483647%Z [])).1 = (-2147483648)%Z ∧
  tmpDirName (-2147483648) = "/tmp/nix-4242--2147483648".
Proof. split; vm_compute; reflexivity. Qed.

(** The strings of an environment come in the order of their names. *)
Example envStrings_order :
  envStrings {[ "C" := "3"; "AA" := "4"; "A" := "1"; "B" := "2" ]}
  = ["A=1"; "AA=4"; "B=2"; "C=3"].
Proof. vm_compute. reflexivity. Qed.

(** X17, witness: the nested derivation, whose input is built and then
    refused. *)
Lemma normaliseFState_registers_no_successor_toy :
  dbSuccessors (normaliseFState 3 "iouter" nestedWorld).1
    = dbSuccessors nestedWorld.
Proof.
  apply (normaliseFState_registers_no_successor (hashOps := toyHash)
           (system := toySystem) 3 "iouter" nestedWorld).
  exact toy_expandId_keepsIndex.
Defined.

(** X18, witness: the builder exits with status 1. *)
Lemma failed_build_registers_nothing_toy :
  buildOutputs "/bin/false" ∅ twoOutputs [] (storeWorld builders ∅)
    = ((runProgram "/bin/false" ∅ (storeWorld builders ∅)).1,
       Throw (BuildError "unable to build package")) ∧
  dbPath2Id (runProgram "/bin/false" ∅ (storeWorld builders ∅)).1
    = dbPath2Id (storeWorld builders ∅) ∧
  (trace (runProgram "/bin/false" ∅ (storeWorld builders ∅)).1
     = trace (storeWorld builders ∅) ∨
   trace (runProgram "/bin/false" ∅ (storeWorld builders ∅)).1
     = trace (storeWorld builders ∅) ++ [EvRunProgram "/bin/false" ∅]).
Proof.
  apply (failed_build_registers_nothing (hashOps := toyHash)
           (system := toySystem) "/bin/false" ∅ twoOutputs []
           (storeWorld builders ∅)).
  vm_compute. reflexivity.
Defined.

(** X19, witness: the simple derivation, normalised twice. *)
Lemma normalise_twice_obstructed_toy :
  normaliseFState 2 "iderive"
    (normaliseFState 2 "iderive"
       (worldWith builders (simpleDerive "/bin/touch-out" "i686-linux"))).1
  = ((normaliseFState 2 "iderive"
        (worldWith builders (simpleDerive "/bin/touch-out" "i686-linux"))).1,
     Throw (OutputObstructed "/s/out")).
Proof.
  apply (normalise_twice_obstructed (hashOps := toyHash) (system := toySystem)
           1 "iderive" "iderive"
           (worldWith builders (simpleDerive "/bin/touch-out" "i686-linux"))
           _ (mkSlice (hashOps := toyHash) ["hout"] []) "/s/out" "hout" []
           "/bin/touch-out"
           "i686-linux" [ATuple [AStr "OUT"; AStr "/s/out"]]).
  - reflexivity.
  - reflexivity.
  - vm_compute. reflexivity.
  - vm_compute. reflexivity.
Defined.

(** A builder that makes its output and removes the term it was built
    from: the second call does not get as far as the outputs, it fails
    where the term is loaded. *)
Example normalise_twice_term_removed :
  (normaliseFState (system := forgetfulSystem) 2 "iderive"
     (worldWith builders (simpleDerive "/bin/touch-out" "i686-linux"))).2
    = Done (mkSlice ["hout"] []) ∧
  (normaliseFState (system := forgetfulSystem) 2 "iderive"
     (normaliseFState (system := forgetfulSystem) 2 "iderive"
        (worldWith builders (simpleDerive "/bin/touch-out" "i686-linux"))).1).2
    = Throw (StoreError "cannot expand id").
Proof. split; vm_compute; reflexivity. Qed.

(** X20, witness. *)
Lemma realiseSlice_installed_noop_toy :
  realiseSlice sliceAB installedAB = (installedAB, Done tt).
Proof.
  apply (realiseSlice_installed_noop (hashOps := toyHash) (system := toySystem)
           sliceAB installedAB).
  - discriminate.
  - constructor; [exists "ha"; split; reflexivity|].
    constructor; [exists "hb"; split; reflexivity|constructor].
Defined.

Lemma sliceAB_ids_parse (e : SliceElem) :
  e ∈ elems sliceAB → parseHash (printHash (elemId e)) = Some (elemId e).
Proof.
  intros He. simpl in He.
  apply elem_of_cons in He as [->|He]; [reflexivity|].
  apply elem_of_cons in He as [->|He]; [reflexivity|].
  by apply elem_of_nil in He.
Qed.

Lemma sliceAB_pathsFunctional : pathsFunctional sliceAB.
Proof.
  intros e1 e2 H1 H2. simpl in H1, H2.
  apply elem_of_cons in H1 as [->|H1];
    [|apply elem_of_cons in H1 as [->|H1]; [|by apply elem_of_nil in H1]];
    (apply elem_of_cons in H2 as [->|H2];
      [|apply elem_of_cons in H2 as [->|H2]; [|by apply elem_of_nil in H2]]);
    simpl; first [reflexivity | discriminate].
Qed.

(** X21, witness: the slice of [/s/a] and [/s/b], realised from the
    cache. *)
Lemma realiseSlice_installs_toy :
  Forall (installed (realiseSlice sliceAB (storeWorld cache ∅)).1)
    (elems sliceAB).
Proof.
  apply (realiseSlice_installs (hashOps := toyHash) (system := toySystem)
           sliceAB (storeWorld cache ∅)
           (realiseSlice sliceAB (storeWorld cache ∅)).1).
  - exact toy_expandId_registers.
  - exact sliceAB_ids_parse.
  - exact sliceAB_pathsFunctional.
  - vm_compute. reflexivity.
Defined.

(** X22, witness: the content of [/s/a] is in the store, the content of
    [/s/b] is not. *)
Lemma expandElems_stops_at_failure_toy :
  expandElems ([elemA] ++ elemB :: []) (storeWorld halfCache ∅)
  = (logEvent (EvExpandId "hb" "/s/b")
       (expandElems [elemA] (storeWorld halfCache ∅)).1,
     Throw (StoreError "cannot expand id")).
Proof.
  apply (expandElems_stops_at_failure (hashOps := toyHash)
           (system := toySystem) [elemA] [] elemB
           (StoreError "cannot expand id") (storeWorld halfCache ∅)
           (expandElems [elemA] (storeWorld halfCache ∅)).1).
  - vm_compute. reflexivity.
  - vm_compute. reflexivity.
Defined.

(** X23, witness: the derivation ["iouter"] has the simple derivation as
    its input. *)
Lemma derivation_input_never_realised_toy :
  normaliseFState 3 "iouter" nestedWorld
  = ((normaliseFState 2 "iderive" nestedWorld).1, Throw EmptySlice).
Proof.
  apply (derivation_input_never_realised (hashOps := toyHash)
           (system := toySystem) 1 "iouter" "iouter" "iderive" "iderive"
           nestedWorld _ [ATuple [AStr "/s/app"; AStr "happ"]] "iderive" []
           "/bin/lazy" [] []
           (simpleDerive "/bin/touch-out" "i686-linux")
           (mkSlice (hashOps := toyHash) ["hout"] [])).
  - reflexivity.
  - reflexivity.
  - reflexivity.
  - reflexivity.
  - reflexivity.
  - reflexivity.
  - vm_compute. reflexivity.
Defined.

(** The nested run in full: the input was built and registered, the
    outer builder never ran. *)
Example nested_derivation_run :
  dbPath2Id (normaliseFState 3 "iouter" nestedWorld).1 = {[ "/s/out" := "hout" ]} ∧
  trace (normaliseFState 3 "iouter" nestedWorld).1
  = [EvRunProgram "/bin/touch-out" {[ "OUT" := "/s/out" ]};
     EvRegisterPath "/s/out" "hout"].
Proof. split; vm_compute; reflexivity. Qed.

(** ** The revised claims, run on the small system *)

(** C10, counterexample: [/s/doc] is declared first and the builder does
    not make it.  [/s/out] is declared, exists after the build, and is
    not registered: the loop threw before it came to it. *)
Lemma existing_output_after_missing_not_registered :
  ∃ w',
    buildOutputs "/bin/touch-out" ∅ docFirst [] (storeWorld builders ∅)
      = (w', Throw (BuildIncomplete "/s/doc")) ∧
    pathExists "/s/out" w' = true ∧
    dbPath2Id w' !! "/s/out" = None.
Proof.
  eexists. split; [vm_compute; reflexivity|]. split; vm_compute; reflexivity.
Qed.

(** C10, witness: the builder leaves content [hother] at [/s/out], the
    derivation declares [hout] for it and then [/s/doc], which is not
    made. *)
Lemma existing_output_registered_under_declared_id_toy :
  fs (built "/bin/touch-other" twoOutputs) !! "/s/out" = Some (Blob "hother") ∧
  ∃ w' r later,
    buildOutputs "/bin/touch-other" ∅ ([] ++ ("/s/out", "hout") :: [("/s/doc", "hdoc")])
      [] (storeWorld builders ∅) = (w', r) ∧
    fs w' = fs (built "/bin/touch-other" twoOutputs) ∧
    trace w' = trace (built "/bin/touch-other" twoOutputs)
               ++ ((λ o, EvRegisterPath o.1 o.2)
                     <$> ([] ++ ("/s/out", "hout") :: later)) ∧
    ("/s/out" ∉ later.*1 → dbPath2Id w' !! "/s/out" = Some (printHash "hout")) ∧
    ((later = [("/s/doc", "hdoc")] ∧
      r = Done (mkSlice ([] ++ ("/s/out", "hout") :: [("/s/doc", "hdoc")]).*2 [])) ∨
     (∃ p i rest,
        [("/s/doc", "hdoc")] = later ++ (p, i) :: rest ∧
        pathExists p (built "/bin/touch-other" twoOutputs) = false ∧
        r = Throw (BuildIncomplete p))).
Proof.
  split; [vm_compute; reflexivity|].
  apply (existing_output_registered_under_declared_id (hashOps := toyHash)
           (system := toySystem) "/bin/touch-other" ∅ [] [("/s/doc", "hdoc")]
           "/s/out" "hout" [] (storeWorld builders ∅)
           (built "/bin/touch-other" twoOutputs)).
  - vm_compute. reflexivity.
  - constructor.
  - vm_compute. reflexivity.
Defined.



(** With that [expandId] the slice that lists [/s/a] with two ids is not
    realised at all: the first call fails at the second expansion. *)
Example realiseSlice_twice_listed_refused :
  (realiseSlice (system := carefulSystem) sliceTwice (storeWorld cache ∅)).2
  = Throw (StoreError "target is registered under another id").
Proof. vm_compute. reflexivity. Qed.
